(** * Force Match: radial graph dashboard

    A shallow embedding of the data parser ([utils/dataParser.js]), of the
    edge curve component ([components/Connection.jsx]) and of the layout,
    render pass and interaction handlers of [components/Dashboard.jsx].

    Conventions of the embedding.
    - JavaScript numbers are modelled as real numbers: arithmetic is exact,
      lengths and indices are injected with [INR]. The doubles themselves
      are computed in [Binary64], for the one property that is about them.
    - JavaScript strings are modelled as [string]; each character stands for
      one code unit, and the default [Array.prototype.sort] order is the
      lexicographic order [String.le] on them.
    - Object literals used as dictionaries ([positions], [groups],
      [characterGroups], the colour table) are finite maps over their own
      keys. This is exact on keys that are none of the property names
      inherited from [Object.prototype] ([Js.Object_prototype_names]): for
      one of those the engine finds the inherited member, so that the
      [groups] reduce throws and a lookup in [positions] yields a member
      that is no position. [Js.plainKeys] states the restriction.
    - The [Map] of the parser keeps insertion order and is an association
      list; an object stored in it and mutated through a reference is
      updated in place.
    - The n3 parser is an external collaborator: the extractors start from
      the list of quads it returns. *)

From Stdlib Require Import Reals Lra SpecFloat.
From stdpp Require Import gmap strings list fin_maps sorting pretty.

Set Warnings "-clear-no-such-hyp".

(** ** A JavaScript [Map] with string keys, in insertion order *)

Module JsMap.
Section JsMap.
Context {V : Type}.

Definition t := list (string * V).

Definition empty : t := [].

Definition has (k : string) (m : t) : bool :=
  existsb (λ e, String.eqb e.1 k) m.

Fixpoint get (k : string) (m : t) : option V :=
  match m with
  | [] => None
  | (k', v) :: m' => if String.eqb k' k then Some v else get k m'
  end.

(** [m.set(k, v)]: replaces the value of an existing key where it stands,
    appends a new key. *)
Definition set (k : string) (v : V) (m : t) : t :=
  if has k m
  then map (λ e, if String.eqb e.1 k then (e.1, v) else e) m
  else m ++ [(k, v)].

(** Mutation, through the reference returned by [m.get(k)], of the object
    stored under [k]. *)
Definition update (k : string) (f : V → V) (m : t) : t :=
  map (λ e, if String.eqb e.1 k then (e.1, f e.2) else e) m.

Definition values (m : t) : list V := map snd m.
End JsMap.
Global Arguments t : clear implicits.
End JsMap.

(** ** [utils/dataParser.js] *)

Module DataParser.

(** A quad as the extractors read it: the [value] of its subject, predicate
    and object terms. *)
Record Quad := mkQuad {
  subject : string;
  predicate : string;
  object : string
}.

Record Character := mkCharacter {
  id : string;
  name : string;
  type : string;
  species : string;
  gender : string;
  homeworld : string;
  height : string;
  mass : string;
  hairColor : string;
  skinColor : string;
  eyeColor : string;
  birthYear : string;
  films : list string
}.

(** A connection object [{ source, target }]. *)
Record Edge := mkEdge {
  source : string;
  target : string
}.

Definition rdf_type : string := "http://www.w3.org/1999/02/22-rdf-syntax-ns#type".
Definition voc_Character : string := "https://swapi.co/vocabulary/Character".
Definition rdfs_label : string := "http://www.w3.org/2000/01/rdf-schema#label".
Definition bo_type : string := "http://www.ontotext.com/business-object/type".
Definition voc_gender : string := "https://swapi.co/vocabulary/gender".
Definition voc_homeworld : string := "https://swapi.co/vocabulary/homeworld".
Definition voc_height : string := "https://swapi.co/vocabulary/height".
Definition voc_mass : string := "https://swapi.co/vocabulary/mass".
Definition voc_hairColor : string := "https://swapi.co/vocabulary/hairColor".
Definition voc_skinColor : string := "https://swapi.co/vocabulary/skinColor".
Definition voc_eyeColor : string := "https://swapi.co/vocabulary/eyeColor".
Definition voc_birthYear : string := "https://swapi.co/vocabulary/birthYear".
Definition voc_film : string := "https://swapi.co/vocabulary/film".
Definition voc_connectedTo : string := "https://swapi.co/vocabulary/connectedTo".

(** The object literal stored for a newly seen character. *)
Definition newCharacter (subject : string) : Character :=
  mkCharacter subject "" "" "" "" "" "" "" "" "" "" "" [].

(** The [switch (predicate)] of the extractor, on the object [char]. *)
Definition applyPredicate (predicate object : string) (char : Character)
  : Character :=
  let '(mkCharacter i n t s g hw h m hc sc ec b f) := char in
  if String.eqb predicate rdfs_label then
    mkCharacter i object t s g hw h m hc sc ec b f
  else if String.eqb predicate bo_type then
    mkCharacter i n object object g hw h m hc sc ec b f
  else if String.eqb predicate voc_gender then
    mkCharacter i n t s object hw h m hc sc ec b f
  else if String.eqb predicate voc_homeworld then
    mkCharacter i n t s g object h m hc sc ec b f
  else if String.eqb predicate voc_height then
    mkCharacter i n t s g hw object m hc sc ec b f
  else if String.eqb predicate voc_mass then
    mkCharacter i n t s g hw h object hc sc ec b f
  else if String.eqb predicate voc_hairColor then
    mkCharacter i n t s g hw h m object sc ec b f
  else if String.eqb predicate voc_skinColor then
    mkCharacter i n t s g hw h m hc object ec b f
  else if String.eqb predicate voc_eyeColor then
    mkCharacter i n t s g hw h m hc sc object b f
  else if String.eqb predicate voc_birthYear then
    mkCharacter i n t s g hw h m hc sc ec object f
  else if String.eqb predicate voc_film then
    if existsb (String.eqb object) f
    then char
    else mkCharacter i n t s g hw h m hc sc ec b (f ++ [object])
  else char.

(** The test that marks a subject as a character. *)
Definition isCharacterType (quad : Quad) : bool :=
  String.eqb (predicate quad) rdf_type && String.eqb (object quad) voc_Character.

(** The body of [quads.forEach] in [parseCharactersFromTTL]. *)
Definition onCharacterQuad (characters : JsMap.t Character) (quad : Quad)
  : JsMap.t Character :=
  let characters :=
    if isCharacterType quad then
      if negb (JsMap.has (subject quad) characters)
      then JsMap.set (subject quad) (newCharacter (subject quad)) characters
      else characters
    else characters in
  if JsMap.has (subject quad) characters
  then JsMap.update (subject quad)
         (applyPredicate (predicate quad) (object quad)) characters
  else characters.

Definition characterMap (quads : list Quad) : JsMap.t Character :=
  fold_left onCharacterQuad quads JsMap.empty.

(** [parseCharactersFromTTL], from the quads of [parser.parse(ttlContent)]
    to the array the promise resolves with. *)
Definition parseCharactersFromTTL (quads : list Quad) : list Character :=
  JsMap.values (characterMap quads).

(** The body of [quads.forEach] in [parseConnectionsFromTTL]. *)
Definition onConnectionQuad (connections : list Edge) (quad : Quad)
  : list Edge :=
  if String.eqb (predicate quad) voc_connectedTo
  then connections ++ [mkEdge (subject quad) (object quad)]
  else connections.

Definition parseConnectionsFromTTL (quads : list Quad) : list Edge :=
  fold_left onConnectionQuad quads [].

End DataParser.

(** ** Outcome of a JavaScript computation that may throw *)

Module Js.

(** [TypeError] is what reading a property of [undefined] throws. *)
Inductive Result (A : Type) : Type :=
  | Ok (a : A)
  | TypeError.
Global Arguments Ok {A} a.
Global Arguments TypeError {A}.

Definition bind {A B} (r : Result A) (k : A → Result B) : Result B :=
  match r with
  | Ok a => k a
  | TypeError => TypeError
  end.

(** [array.map(f)] where [f] may throw: the first exception aborts the map. *)
Fixpoint mapM {A B} (f : A → Result B) (l : list A) : Result (list B) :=
  match l with
  | [] => Ok []
  | a :: l' => bind (f a) (λ b, bind (mapM f l') (λ bs, Ok (b :: bs)))
  end.

(** [array.reduce(f, init)], the callback receiving the index too;
    [array.forEach(f)] is the same traversal, the variables its callback
    assigns being the accumulator. *)
Fixpoint reduce_from {A B} (f : B → A → nat → B) (index : nat) (l : list A)
    (acc : B) : B :=
  match l with
  | [] => acc
  | a :: l' => reduce_from f (S index) l' (f acc a index)
  end.

Definition reduce {A B} (f : B → A → nat → B) (l : list A) (init : B) : B :=
  reduce_from f 0 l init.

(** [array.indexOf(x)]; [None] stands for [-1]. *)
Fixpoint indexOf (x : string) (l : list string) : option nat :=
  match l with
  | [] => None
  | y :: l' => if String.eqb y x then Some 0 else S <$> indexOf x l'
  end.

(** [Object.keys(o)]. The engine lists the keys in its own order; every use
    below sorts them, and a list of distinct strings has one sorted
    arrangement. *)
Definition Object_keys {V} (o : gmap string V) : list string :=
  (map_to_list o).*1.

(** [array.sort()] on strings, with the default comparison. *)
Definition sort (l : list string) : list string := merge_sort String.le l.

(** Truthiness of a string: only the empty string is falsy. *)
Definition truthy (s : string) : bool := negb (String.eqb s "").

(** The property names an object literal inherits from [Object.prototype]:
    looking one of them up in a dictionary finds the inherited member, which
    the finite maps of the embedding do not have. *)
Definition Object_prototype_names : list string :=
  ["constructor"; "__defineGetter__"; "__defineSetter__"; "hasOwnProperty";
   "__lookupGetter__"; "__lookupSetter__"; "isPrototypeOf";
   "propertyIsEnumerable"; "toString"; "valueOf"; "__proto__";
   "toLocaleString"].

(** The keys on which an object literal used as a dictionary behaves as the
    finite map of its own properties: none names an inherited member. *)
Definition plainKeys (keys : list string) : Prop :=
  Forall (λ key, key ∉ Object_prototype_names) keys.

End Js.

(** ** [components/Connection.jsx] *)

Module Connection.
Local Open Scope R_scope.

Record Position := mkPosition { x : R; y : R }.

Definition AFFINITY_FACTOR : R := 0.85.

(** The props of the component. [startPos] and [endPos] are whatever the
    caller read from the position object: a position or [undefined]. *)
Record Props := mkProps {
  startPos : option Position;
  endPos : option Position;
  color : string;
  isHighlighted : bool;
  centerX : R;
  centerY : R
}.

(** The geometry the component draws: the four points of the path
    [M start C control1, control2, end], the arrow direction [(dx, dy)], and
    the styling inputs. *)
Record Curve := mkCurve {
  pathStart : Position;
  control1 : Position;
  control2 : Position;
  pathEnd : Position;
  dx : R;
  dy : R;
  stroke : string;
  highlighted : bool
}.

(** The body of the component for a given pull factor. *)
Definition curve (affinity : R) (startPos endPos : Position) (color : string)
    (isHighlighted : bool) (centerX centerY : R) : Curve :=
  let control1X := x startPos + (centerX - x startPos) * affinity in
  let control1Y := y startPos + (centerY - y startPos) * affinity in
  let control2X := x endPos + (centerX - x endPos) * affinity in
  let control2Y := y endPos + (centerY - y endPos) * affinity in
  let dx := x endPos - control2X in
  let dy := y endPos - control2Y in
  mkCurve startPos (mkPosition control1X control1Y)
    (mkPosition control2X control2Y) endPos dx dy color isHighlighted.

(** The component: reading [startPos.x] or [endPos.x] throws when the prop
    is [undefined]. *)
Definition Connection (props : Props) : Js.Result Curve :=
  match startPos props, endPos props with
  | Some s, Some e =>
      Js.Ok (curve AFFINITY_FACTOR s e (color props) (isHighlighted props)
               (centerX props) (centerY props))
  | _, _ => Js.TypeError
  end.

End Connection.

(** ** Plane geometry used to state the layout properties *)

Module Geometry.
Local Open Scope R_scope.

(** Euclidean distance from the point [p] to the point [(cx, cy)]. *)
Definition distance (p : Connection.Position) (cx cy : R) : R :=
  sqrt ((Connection.x p - cx)² + (Connection.y p - cy)²).

(** The point of the circle of centre [(cx, cy)] and radius [r] at [angle]. *)
Definition onCircle (cx cy r angle : R) : Connection.Position :=
  Connection.mkPosition (cx + r * cos angle) (cy + r * sin angle).

(** The sum of a list of numbers. *)
Definition sum (l : list R) : R := foldr Rplus 0 l.

End Geometry.

(** ** [getColorForSpecies] of [utils/dataParser.js] *)

Module Palette.

Definition colors : gmap string string := list_to_map [
  ("Human", "#4A9EFF"); ("Droid", "#B270FF"); ("Wookiee", "#FFE66D");
  ("Rodian", "#7FFF00"); ("Hutt", "#FF8C42"); ("Yoda's species", "#7FFF00");
  ("Trandoshan", "#FF3B3B"); ("Mon Calamari", "#4A9EFF"); ("Ewok", "#FFE66D");
  ("Sullustan", "#FF8C42"); ("Neimodian", "#7FFF00"); ("Gungan", "#4A9EFF");
  ("Toydarian", "#B270FF"); ("Dug", "#FF3B3B"); ("Twi'lek", "#B270FF");
  ("Aleena", "#FF8C42"); ("Vulptereen", "#FFE66D"); ("Xexto", "#7FFF00");
  ("Toong", "#4A9EFF"); ("Cerean", "#B270FF"); ("Nautolan", "#4A9EFF");
  ("Zabrak", "#FF3B3B"); ("Tholothian", "#B270FF"); ("Iktotchi", "#FF8C42");
  ("Quermian", "#7FFF00"); ("Kel Dor", "#4A9EFF"); ("Chagrian", "#B270FF");
  ("Geonosian", "#FF3B3B"); ("Mirialan", "#7FFF00"); ("Clawdite", "#B270FF");
  ("Besalisk", "#FF8C42"); ("Kaminoan", "#4A9EFF"); ("Skakoan", "#FFE66D");
  ("Muun", "#B270FF"); ("Togruta", "#FF3B3B"); ("Kaleesh", "#FF8C42");
  ("Pau'an", "#B270FF")
].

Definition getColorForSpecies (species : string) : string :=
  default "#4A9EFF" (colors !! species).

End Palette.

(** ** [components/Dashboard.jsx] *)

Module Dashboard.
Local Open Scope R_scope.

Record Dimensions := mkDimensions { width : R; height : R }.

(** The six [useState] cells of the component. *)
Record State := mkState {
  selectedCharacter : option DataParser.Character;
  hoveredCharacterId : option string;
  isSidebarOpen : bool;
  isSettingsOpen : bool;
  groupBy : string;
  dimensions : Dimensions
}.

Definition initialState (window : Dimensions) : State :=
  mkState None None false false "none" window.

(** *** Event handlers *)

Definition handleResize (window : Dimensions) (st : State) : State :=
  mkState (selectedCharacter st) (hoveredCharacterId st) (isSidebarOpen st)
    (isSettingsOpen st) (groupBy st) window.

Definition handleNodeClick (character : DataParser.Character) (st : State)
  : State :=
  mkState (Some character) (hoveredCharacterId st) true
    (isSettingsOpen st) (groupBy st) (dimensions st).

Definition handleSidebarClose (st : State) : State :=
  mkState (selectedCharacter st) (hoveredCharacterId st) false
    (isSettingsOpen st) (groupBy st) (dimensions st).

Definition handleSettingsToggle (st : State) : State :=
  mkState (selectedCharacter st) (hoveredCharacterId st) (isSidebarOpen st)
    (negb (isSettingsOpen st)) (groupBy st) (dimensions st).

Definition handleGroupByChange (value : string) (st : State) : State :=
  mkState (selectedCharacter st) (hoveredCharacterId st) (isSidebarOpen st)
    (isSettingsOpen st) value (dimensions st).

(** [onMouseEnter] passes [Some id], [onMouseLeave] passes [None]. *)
Definition setHoveredCharacterId (hovered : option string) (st : State)
  : State :=
  mkState (selectedCharacter st) hovered (isSidebarOpen st)
    (isSettingsOpen st) (groupBy st) (dimensions st).

(** *** Group colours *)

Definition groupColors : list string := [
  "#4A9EFF"; "#7FFF00"; "#FF3B3B"; "#B270FF"; "#FFE66D";
  "#FF8C42"; "#00D9FF"; "#FF69B4"; "#32CD32"; "#FF1493"
].

Definition getColorForGroup (groupKey : string) (groupIndex totalGroups : nat)
  : string :=
  default "" (groupColors !! (groupIndex `mod` length groupColors)%nat).

(** *** The layout memo *)

Record GroupInfo := mkGroupInfo {
  name : string;
  startAngle : R;
  endAngle : R;
  centerX : R;
  centerY : R;
  radius : R
}.

Record CharacterGroup := mkCharacterGroup {
  groupKey : string;
  groupIndex : nat
}.

Record Layout := mkLayout {
  positions : gmap string Connection.Position;
  groupInfo : option (list GroupInfo);
  characterGroups : gmap string CharacterGroup
}.

Definition gapAngle : R := 0.05.

(** The bucket key computed for one character in the [groups] reduce. *)
Definition groupKeyOf (groupBy : string) (char : DataParser.Character)
  : string :=
  if String.eqb groupBy "species" && Js.truthy (DataParser.species char)
  then DataParser.species char
  else if String.eqb groupBy "gender" && Js.truthy (DataParser.gender char)
  then DataParser.gender char
  else if String.eqb groupBy "films"
          && (0 <? length (DataParser.films char))%nat
  then pretty (length (DataParser.films char)) +:+ " films"
  else "Unknown".

(** The callback of the [groups] reduce, for a key that is none of
    [Js.Object_prototype_names]: [acc[key]] is then the own bucket or
    [undefined]. For one of those names [!acc[key]] is false, as [acc[key]]
    is the inherited member, no bucket is created, and [acc[key].push]
    throws. *)
Definition addToGroup (groupBy : string)
    (acc : gmap string (list DataParser.Character))
    (char : DataParser.Character) (index : nat)
  : gmap string (list DataParser.Character) :=
  let key := groupKeyOf groupBy char in
  let acc := match acc !! key with
             | None => <[key := []]> acc
             | Some _ => acc
             end in
  alter (λ members, members ++ [char]) key acc.

Definition groups (groupBy : string) (characters : list DataParser.Character)
  : gmap string (list DataParser.Character) :=
  Js.reduce (addToGroup groupBy) characters ∅.

Definition groupKeys (groupBy : string)
    (characters : list DataParser.Character) : list string :=
  Js.sort (Js.Object_keys (groups groupBy characters)).

(** The variables the grouped branch assigns while it walks the groups. *)
Record Placement := mkPlacement {
  placedPositions : gmap string Connection.Position;
  groupInfoArray : list GroupInfo;
  placedGroups : gmap string CharacterGroup;
  currentAngle : R
}.

Definition groupAngleSpan (groupSize totalCharacters : nat) (usableAngle : R)
  : R :=
  INR groupSize / INR totalCharacters * usableAngle.

(** The callback of [groupMembers.forEach]. *)
Definition placeMember (centerX centerY radius currentAngle angleStep : R)
    (groupKey : string) (groupIndex : nat)
    (acc : gmap string Connection.Position * gmap string CharacterGroup)
    (char : DataParser.Character) (index : nat)
  : gmap string Connection.Position * gmap string CharacterGroup :=
  let angle := currentAngle + (INR index + 0.5) * angleStep in
  (<[DataParser.id char :=
       Connection.mkPosition (centerX + radius * cos angle)
                             (centerY + radius * sin angle)]> acc.1,
   <[DataParser.id char := mkCharacterGroup groupKey groupIndex]> acc.2).

(** The callback of [groupKeys.forEach]. *)
Definition placeGroup (groups : gmap string (list DataParser.Character))
    (totalCharacters : nat) (usableAngle centerX centerY radius : R)
    (acc : Placement) (groupKey : string) (groupIndex : nat) : Placement :=
  let groupMembers := default [] (groups !! groupKey) in
  let groupSize := length groupMembers in
  let groupAngleSpan := groupAngleSpan groupSize totalCharacters usableAngle in
  let angleStep := groupAngleSpan / INR groupSize in
  let startAngle := currentAngle acc in
  let placed :=
    Js.reduce
      (placeMember centerX centerY radius (currentAngle acc) angleStep
         groupKey groupIndex)
      groupMembers (placedPositions acc, placedGroups acc) in
  let endAngle := currentAngle acc + groupAngleSpan in
  mkPlacement placed.1
    (groupInfoArray acc
       ++ [mkGroupInfo groupKey startAngle endAngle centerX centerY radius])
    placed.2
    (currentAngle acc + (groupAngleSpan + gapAngle)).

Definition usableAngle (numGroups : nat) : R :=
  2 * PI - gapAngle * INR numGroups.

(** The body of the [useMemo] that yields
    [{ positions, groupInfo, characterGroups }]. *)
Definition layout (characters : list DataParser.Character)
    (dimensions : Dimensions) (groupBy : string) : Layout :=
  let centerX := width dimensions / 2 in
  let centerY := height dimensions / 2 in
  let radius := Rmin (width dimensions) (height dimensions) * 0.35 in
  if String.eqb groupBy "none" then
    let angleStep := 2 * PI / INR (length characters) in
    let positions :=
      Js.reduce
        (λ acc char index,
           let angle := INR index * angleStep - PI / 2 in
           <[DataParser.id char :=
               Connection.mkPosition (centerX + radius * cos angle)
                                     (centerY + radius * sin angle)]> acc)
        characters ∅ in
    let characterGroups :=
      Js.reduce
        (λ acc char (_ : nat),
           <[DataParser.id char := mkCharacterGroup "default" 0]> acc)
        characters ∅ in
    mkLayout positions None characterGroups
  else
    let groups := groups groupBy characters in
    let groupKeys := Js.sort (Js.Object_keys groups) in
    let totalCharacters := length characters in
    let usableAngle := usableAngle (length groupKeys) in
    let final :=
      Js.reduce
        (placeGroup groups totalCharacters usableAngle centerX centerY radius)
        groupKeys (mkPlacement ∅ [] ∅ (- PI / 2)) in
    mkLayout (placedPositions final) (Some (groupInfoArray final))
      (placedGroups final).

(** *** Hover highlighting *)

(** [hoveredCharacterId === s], the state cell being [null] or a string. *)
Definition hoveredIs (hoveredCharacterId : option string) (s : string) : bool :=
  match hoveredCharacterId with
  | Some hovered => String.eqb hovered s
  | None => false
  end.

(** The [isHighlighted] flag computed for one connection. *)
Definition isHighlighted (hoveredCharacterId : option string)
    (conn : DataParser.Edge) : bool :=
  hoveredIs hoveredCharacterId (DataParser.source conn)
  || hoveredIs hoveredCharacterId (DataParser.target conn).

(** The [connectedCharacters] memo; [!hoveredCharacterId] holds for [null]
    and for the empty string. *)
Definition connectedCharacters (hoveredCharacterId : option string)
    (connections : list DataParser.Edge) : gset string :=
  match hoveredCharacterId with
  | None => ∅
  | Some hovered =>
      if Js.truthy hovered then
        Js.reduce
          (λ (connected : gset string) conn (_ : nat),
             let connected :=
               if String.eqb (DataParser.source conn) hovered
               then {[DataParser.target conn]} ∪ connected
               else connected in
             if String.eqb (DataParser.target conn) hovered
             then {[DataParser.source conn]} ∪ connected
             else connected)
          connections ∅
      else ∅
  end.

(** *** The render pass *)

(** The props handed to [CharacterNode]; the label placement inside that
    component is presentation and is not modelled. *)
Record NodeProps := mkNodeProps {
  character : DataParser.Character;
  position : Connection.Position;
  isHovered : bool;
  isConnectedToHovered : bool;
  color : string;
  nodeCenterX : R;
  nodeCenterY : R
}.

(** The callback of [connections.map]: [None] is the [null] it returns for
    an edge without both positions. The lookups are those of the engine for
    ids that are none of [Js.Object_prototype_names]; for one of those names
    that is the id of no character, [positions[id]] is the inherited member,
    which passes the guard. *)
Definition renderConnection (positions : gmap string Connection.Position)
    (hoveredCharacterId : option string) (centerX centerY : R)
    (conn : DataParser.Edge) : Js.Result (option Connection.Curve) :=
  let startPos := positions !! DataParser.source conn in
  let endPos := positions !! DataParser.target conn in
  match startPos, endPos with
  | Some _, Some _ =>
      Js.bind
        (Connection.Connection
           (Connection.mkProps startPos endPos "#E5E7EB"
              (isHighlighted hoveredCharacterId conn) centerX centerY))
        (λ element, Js.Ok (Some element))
  | _, _ => Js.Ok None
  end.

(** The callback of [characters.map]; reading [groupData.groupKey] throws
    when [characterGroups] has no entry for the character. *)
Definition renderNode (l : Layout) (groupBy : string)
    (hoveredCharacterId : option string) (connected : gset string)
    (centerX centerY : R) (character : DataParser.Character)
  : Js.Result (option NodeProps) :=
  match positions l !! DataParser.id character with
  | None => Js.Ok None
  | Some position =>
      match characterGroups l !! DataParser.id character with
      | None => Js.TypeError
      | Some groupData =>
          let groupKeys :=
            match groupInfo l with
            | Some groupInfo => Js.sort (map name groupInfo)
            | None => []
            end in
          let totalGroups := length groupKeys in
          let groupIndex := Js.indexOf (groupKey groupData) groupKeys in
          let color :=
            if String.eqb groupBy "none"
            then Palette.getColorForSpecies (DataParser.species character)
            else getColorForGroup (groupKey groupData)
                   (default 0%nat groupIndex) totalGroups in
          Js.Ok (Some (mkNodeProps character position
                         (hoveredIs hoveredCharacterId (DataParser.id character))
                         (bool_decide (DataParser.id character ∈ connected))
                         color centerX centerY))
      end
  end.

(** What one render pass of the component emits for the connections and for
    the character nodes, in that order. *)
Record View := mkView {
  connectionElements : list (option Connection.Curve);
  nodeElements : list (option NodeProps)
}.

Definition render (characters : list DataParser.Character)
    (connections : list DataParser.Edge) (st : State) : Js.Result View :=
  let l := layout characters (dimensions st) (groupBy st) in
  let connected := connectedCharacters (hoveredCharacterId st) connections in
  let centerX := width (dimensions st) / 2 in
  let centerY := height (dimensions st) / 2 in
  Js.bind
    (Js.mapM (renderConnection (positions l) (hoveredCharacterId st)
                centerX centerY) connections)
    (λ connectionElements,
       Js.bind
         (Js.mapM (renderNode l (groupBy st) (hoveredCharacterId st) connected
                     centerX centerY) characters)
         (λ nodeElements, Js.Ok (mkView connectionElements nodeElements))).

(** *** Group brackets and labels *)

(** What the render pass draws for one group: the dashed arc from
    [arcStart] to [arcEnd] on the circle of radius [bracketRadius], with its
    SVG large-arc flag, and the placement of the label. The label text
    ([name.toUpperCase()]) is not modelled. *)
Record Bracket := mkBracket {
  bracketRadius : R;
  arcStart : Connection.Position;
  arcEnd : Connection.Position;
  largeArcFlag : nat;
  labelPosition : Connection.Position;
  labelRotation : R;
  anchor : string
}.

(** The callback of [groupInfo.map]. *)
Definition renderBracket (group : GroupInfo) : Bracket :=
  let bracketRadius := radius group + 50 in
  let startX := centerX group + bracketRadius * cos (startAngle group) in
  let startY := centerY group + bracketRadius * sin (startAngle group) in
  let endX := centerX group + bracketRadius * cos (endAngle group) in
  let endY := centerY group + bracketRadius * sin (endAngle group) in
  let largeArcFlag :=
    if Rlt_dec PI (endAngle group - startAngle group) then 1%nat else 0%nat in
  let midAngle := (startAngle group + endAngle group) / 2 in
  let midAngleDeg := midAngle * 180 / PI in
  let labelRadius := bracketRadius + 15 in
  let labelX := centerX group + labelRadius * cos midAngle in
  let labelY := centerY group + labelRadius * sin midAngle in
  let flipped :=
    if Rlt_dec 90 midAngleDeg
    then (if Rlt_dec midAngleDeg 270 then true else false)
    else false in
  let labelRotation := if flipped then midAngleDeg + 180 else midAngleDeg in
  let anchor := if flipped then "end" else "start" in
  mkBracket bracketRadius (Connection.mkPosition startX startY)
    (Connection.mkPosition endX endY) largeArcFlag
    (Connection.mkPosition labelX labelY) labelRotation anchor.

(** [groupInfo && groupInfo.map(...)]: nothing is drawn for [null]. *)
Definition renderBrackets (groupInfo : option (list GroupInfo))
  : option (list Bracket) :=
  map renderBracket <$> groupInfo.

(** *** Notions used to state the properties of the render pass *)

(** What the callback of [connections.map] returns, in closed form. *)
Definition connectionElement (positions : gmap string Connection.Position)
    (hoveredCharacterId : option string) (centerX centerY : R)
    (conn : DataParser.Edge) : option Connection.Curve :=
  match positions !! DataParser.source conn,
        positions !! DataParser.target conn with
  | Some startPos, Some endPos =>
      Some (Connection.curve Connection.AFFINITY_FACTOR startPos endPos
              "#E5E7EB" (isHighlighted hoveredCharacterId conn)
              centerX centerY)
  | _, _ => None
  end.


(** The group records the grouped branch pushes while it walks [keys] from
    the angle [angle], in closed form. *)
Fixpoint groupInfoFrom (groups : gmap string (list DataParser.Character))
    (totalCharacters : nat) (usableAngle centerX centerY radius : R)
    (angle : R) (keys : list string) : list GroupInfo :=
  match keys with
  | [] => []
  | k :: keys' =>
      let span :=
        groupAngleSpan (length (default [] (groups !! k))) totalCharacters
          usableAngle in
      mkGroupInfo k angle (angle + span) centerX centerY radius
      :: groupInfoFrom groups totalCharacters usableAngle centerX centerY
           radius (angle + (span + gapAngle)) keys'
  end.

End Dashboard.

(** ** The ungrouped positions in IEEE 754 doubles *)

Module Binary64.

(** JavaScript numbers are binary64 values; the operations are those of
    [SpecFloat], correctly rounded to nearest, ties to even. *)
Definition prec : Z := 53.
Definition emax : Z := 1024.

Definition ofZ (z : Z) : spec_float := binary_normalize prec emax z 0 false.
Definition add : spec_float → spec_float → spec_float := SFadd prec emax.
Definition mul : spec_float → spec_float → spec_float := SFmul prec emax.



(** The literal [0.35], the double [0x1.6666666666666p-2]. *)
Definition literal_0_35 : spec_float :=
  S754_finite false 6305039478318694 (-54).

(** [Math.min] on two numbers that are neither [NaN] nor zeros of
    different sign. *)
Definition Math_min (x y : spec_float) : spec_float :=
  if SFltb y x then y else x.



(** [radius] of the layout memo. *)
Definition radius (width height : Z) : spec_float :=
  mul (Math_min (ofZ width) (ofZ height)) literal_0_35.


End Binary64.

(** ** [components/Sidebar.jsx] *)

Module Sidebar.

(** What the component shows: the panel slid in or out, the backdrop, the
    header with the character's name, and the detail cards as pairs of a
    heading and a text. *)
Record View := mkView {
  slidIn : bool;
  backdrop : bool;
  header : string;
  cards : list (string * string)
}.

(** [{field && <card/>}]: a card is rendered for a truthy field only. *)
Definition card (field heading text : string) : list (string * string) :=
  if Js.truthy field then [(heading, text)] else [].

(** The component; [None] is the [null] it returns without a character. *)
Definition Sidebar (character : option DataParser.Character) (isOpen : bool)
  : option View :=
  match character with
  | None => None
  | Some character =>
      Some (mkView isOpen isOpen (DataParser.name character)
              (card (DataParser.species character) "Species"
                 (DataParser.species character)
               ++ card (DataParser.gender character) "Gender"
                    (DataParser.gender character)
               ++ card (DataParser.height character) "Height"
                    (DataParser.height character +:+ " cm")
               ++ card (DataParser.mass character) "Mass"
                    (DataParser.mass character +:+ " kg")
               ++ card (DataParser.hairColor character) "Hair Color"
                    (DataParser.hairColor character)
               ++ card (DataParser.skinColor character) "Skin Color"
                    (DataParser.skinColor character)
               ++ card (DataParser.eyeColor character) "Eye Color"
                    (DataParser.eyeColor character)
               ++ card (DataParser.birthYear character) "Birth Year"
                    (DataParser.birthYear character)
               ++ (if (0 <? length (DataParser.films character))%nat
                   then [("Films",
                          pretty (length (DataParser.films character))
                          +:+ " film(s)")]
                   else [])))
  end.

(** The sidebar as the dashboard mounts it. *)
Definition mounted (st : Dashboard.State) : option View :=
  Sidebar (Dashboard.selectedCharacter st) (Dashboard.isSidebarOpen st).

End Sidebar.

(** ** [components/SettingsPanel.jsx] *)

Module SettingsPanel.

Record Radio := mkRadio {
  value : string;
  label : string;
  checked : bool
}.

(** The four radio inputs of the panel, in document order. *)
Definition radios (groupBy : string) : list Radio :=
  [mkRadio "none" "No Grouping" (String.eqb groupBy "none");
   mkRadio "species" "Species" (String.eqb groupBy "species");
   mkRadio "gender" "Gender" (String.eqb groupBy "gender");
   mkRadio "films" "Film Appearances" (String.eqb groupBy "films")].

(** [onChange] of a radio: [handleGroupingChange(value)], which the
    dashboard wires to [handleGroupByChange]. *)
Definition onChange (radio : Radio) (st : Dashboard.State) : Dashboard.State :=
  Dashboard.handleGroupByChange (value radio) st.

End SettingsPanel.

(** ** [App.jsx] *)

Module App.

(** The four [useState] cells of the component. *)
Record State := mkState {
  characters : list DataParser.Character;
  connections : list DataParser.Edge;
  loading : bool;
  error : option string
}.

Definition initialState : State := mkState [] [] true None.

(** How the fetches and the n3 parser end: with the quads of the two
    documents, or with an exception carrying [message]. *)
Inductive LoadOutcome :=
  | Fetched (dataQuads connectionsQuads : list DataParser.Quad)
  | Threw (message : string).

(** [loadData]: both lists are stored only after both documents have been
    parsed; an exception stores its message. *)
Definition loadData (outcome : LoadOutcome) (st : State) : State :=
  match outcome with
  | Fetched dataQuads connectionsQuads =>
      mkState (DataParser.parseCharactersFromTTL dataQuads)
        (DataParser.parseConnectionsFromTTL connectionsQuads)
        false (error st)
  | Threw message =>
      mkState (characters st) (connections st) false (Some message)
  end.

Inductive Screen :=
  | LoadingScreen
  | ErrorScreen (message : string)
  | NoCharactersScreen
  | DashboardScreen (characters : list DataParser.Character)
      (connections : list DataParser.Edge).

(** The component's return: [if (error)] is false for [null] and for the
    empty message. *)
Definition App (st : State) : Screen :=
  if loading st then LoadingScreen
  else
    match error st with
    | Some message =>
        if Js.truthy message then ErrorScreen message
        else if (length (characters st) =? 0)%nat then NoCharactersScreen
        else DashboardScreen (characters st) (connections st)
    | None =>
        if (length (characters st) =? 0)%nat then NoCharactersScreen
        else DashboardScreen (characters st) (connections st)
    end.

End App.

(** ** The events of the dashboard

    One constructor per handler the dashboard passes to its children, so
    that properties of every sequence of user actions can be stated. *)

Module Interaction.

Inductive Event :=
  | NodeClick (character : DataParser.Character)
  | SidebarClose
  | SettingsToggle
  | SettingsClose
  | GroupByChange (value : string)
  | MouseEnter (id : string)
  | MouseLeave
  | Resize (window : Dashboard.Dimensions).

(** [onClose] of the settings panel: [() => setIsSettingsOpen(false)]. *)
Definition closeSettings (st : Dashboard.State) : Dashboard.State :=
  Dashboard.mkState (Dashboard.selectedCharacter st)
    (Dashboard.hoveredCharacterId st) (Dashboard.isSidebarOpen st) false
    (Dashboard.groupBy st) (Dashboard.dimensions st).

Definition handle (st : Dashboard.State) (event : Event) : Dashboard.State :=
  match event with
  | NodeClick character => Dashboard.handleNodeClick character st
  | SidebarClose => Dashboard.handleSidebarClose st
  | SettingsToggle => Dashboard.handleSettingsToggle st
  | SettingsClose => closeSettings st
  | GroupByChange value => Dashboard.handleGroupByChange value st
  | MouseEnter id => Dashboard.setHoveredCharacterId (Some id) st
  | MouseLeave => Dashboard.setHoveredCharacterId None st
  | Resize window => Dashboard.handleResize window st
  end.

Definition run (events : list Event) (st : Dashboard.State) : Dashboard.State :=
  fold_left handle events st.

End Interaction.

(** ** A sample graph

    Four characters, three droids and one human, and two connections, one of
    them to an id that is no character. *)

Module Sample.

Definition character (id species : string) : DataParser.Character :=
  DataParser.mkCharacter id id species species "" "" "" "" "" "" "" "" [].

Definition characters : list DataParser.Character :=
  [character "A" "Droid"; character "B" "Droid";
   character "C" "Droid"; character "D" "Human"].

Definition connections : list DataParser.Edge :=
  [DataParser.mkEdge "A" "D"; DataParser.mkEdge "A" "Y"].

Definition window : Dashboard.Dimensions := Dashboard.mkDimensions 800 600.

End Sample.

(** * Properties *)

(** ** The insertion-ordered map *)

Section JsMapFacts.
Context {V : Type}.
Implicit Types (m : JsMap.t V) (k : string).

Lemma JsMap_has_app k m1 m2 :
  JsMap.has k (m1 ++ m2) = JsMap.has k m1 || JsMap.has k m2.
Proof. apply existsb_app. Qed.

Lemma JsMap_has_update k k' f m :
  JsMap.has k (JsMap.update k' f m) = JsMap.has k m.
Proof.
  unfold JsMap.has, JsMap.update. induction m as [|[a v] m IH]; [done|].
  cbn. rewrite IH. by destruct (String.eqb a k').
Qed.

Lemma JsMap_has_set k k' v m :
  JsMap.has k (JsMap.set k' v m) = JsMap.has k m || String.eqb k' k.
Proof.
  unfold JsMap.set. destruct (JsMap.has k' m) eqn:Hk'.
  - assert (JsMap.has k
              (map (λ e, if String.eqb e.1 k' then (e.1, v) else e) m)
            = JsMap.has k m) as ->.
    { unfold JsMap.has. clear Hk'. induction m as [|[a w] m IH]; [done|].
      cbn. rewrite IH. by destruct (String.eqb a k'). }
    destruct (String.eqb_spec k' k) as [->|]; [|by rewrite orb_false_r].
    by rewrite Hk'.
  - rewrite JsMap_has_app. cbn. by rewrite orb_false_r.
Qed.

Lemma JsMap_update_id k f m : (∀ v, f v = v) → JsMap.update k f m = m.
Proof.
  intros Hf. unfold JsMap.update. induction m as [|[a v] m IH]; [done|].
  cbn. rewrite IH. destruct (String.eqb a k); [|done].
  by rewrite Hf.
Qed.
End JsMapFacts.

(** ** The extractors *)

Module DataParserFacts.
Import DataParser.

(** *** Edge extractor *)

Lemma fold_onConnectionQuad quads connections :
  fold_left onConnectionQuad quads connections
  = connections
    ++ map (λ quad, mkEdge (subject quad) (object quad))
         (List.filter (λ quad, String.eqb (predicate quad) voc_connectedTo)
            quads).
Proof.
  revert connections.
  induction quads as [|quad quads IH]; intros connections; cbn.
  - by rewrite app_nil_r.
  - rewrite IH. unfold onConnectionQuad.
    destruct (String.eqb (predicate quad) voc_connectedTo); [|done].
    by rewrite <- app_assoc.
Qed.

(** C4, as the code has it: the edge extractor rejects nothing. It emits one
    edge, source the subject and target the object, for every triple whose
    predicate is [connectedTo], in stream order; a triple whose subject
    equals its object therefore yields a self-loop edge. *)
Theorem parseConnections_keeps_every_connectedTo quads :
  parseConnectionsFromTTL quads
  = map (λ quad, mkEdge (subject quad) (object quad))
      (List.filter (λ quad, String.eqb (predicate quad) voc_connectedTo)
         quads).
Proof. unfold parseConnectionsFromTTL. by rewrite fold_onConnectionQuad. Qed.

(** C4, as stated, fails: the stream holding the single triple
    [luke connectedTo luke] yields the edge from [luke] to [luke]. *)
Lemma parseConnections_self_loop :
  ¬ (∀ quads e, In e (parseConnectionsFromTTL quads) → source e ≠ target e).
Proof.
  intros H.
  apply (H [mkQuad "luke" voc_connectedTo "luke"] (mkEdge "luke" "luke")).
  - left. reflexivity.
  - reflexivity.
Qed.

(** *** Entity extractor *)

Lemma applyPredicate_rdf_type object char :
  applyPredicate rdf_type object char = char.
Proof. by destruct char. Qed.

Lemma isCharacterType_predicate quad :
  isCharacterType quad = true → predicate quad = rdf_type.
Proof.
  unfold isCharacterType. intros [H _]%andb_true_iff.
  by apply String.eqb_eq.
Qed.

(** A subject is in the map after a step iff it was there before or the
    step registered it. *)
Lemma has_onCharacterQuad k characters quad :
  JsMap.has k (onCharacterQuad characters quad)
  = JsMap.has k characters
    || (isCharacterType quad && String.eqb (subject quad) k).
Proof.
  unfold onCharacterQuad.
  destruct (isCharacterType quad) eqn:Htype; cbn [andb].
  - destruct (JsMap.has (subject quad) characters) eqn:Hhas; cbn [negb].
    + rewrite Hhas, JsMap_has_update.
      destruct (String.eqb_spec (subject quad) k) as [<-|];
        [by rewrite Hhas | by rewrite orb_false_r].
    + assert (JsMap.has (subject quad)
                (JsMap.set (subject quad) (newCharacter (subject quad))
                   characters) = true) as ->.
      { rewrite JsMap_has_set, String.eqb_refl. apply orb_true_r. }
      by rewrite JsMap_has_update, JsMap_has_set.
  - rewrite orb_false_r.
    destruct (JsMap.has (subject quad) characters); [|done].
    apply JsMap_has_update.
Qed.

(** The subjects of the map are those a type assertion of the stream
    registered. *)
Lemma has_characterMap k quads :
  JsMap.has k (characterMap quads)
  = existsb (λ quad, isCharacterType quad && String.eqb (subject quad) k)
      quads.
Proof.
  unfold characterMap.
  enough (∀ m, JsMap.has k (fold_left onCharacterQuad quads m)
               = JsMap.has k m
                 || existsb (λ quad, isCharacterType quad
                                     && String.eqb (subject quad) k) quads)
    as H by apply H.
  induction quads as [|quad quads IH]; intros m; cbn [fold_left existsb].
  - by rewrite orb_false_r.
  - by rewrite IH, has_onCharacterQuad, orb_assoc.
Qed.

(** A type assertion for a subject already in the map changes nothing. *)
Lemma onCharacterQuad_registered characters quad :
  isCharacterType quad = true →
  JsMap.has (subject quad) characters = true →
  onCharacterQuad characters quad = characters.
Proof.
  intros Htype Hhas. unfold onCharacterQuad.
  rewrite Htype, Hhas. cbn [negb]. rewrite Hhas.
  apply JsMap_update_id. intros char.
  rewrite (isCharacterType_predicate _ Htype).
  apply applyPredicate_rdf_type.
Qed.

(** A triple that is no type assertion, on a subject not in the map, is
    ignored. *)
Lemma onCharacterQuad_unregistered characters quad :
  isCharacterType quad = false →
  JsMap.has (subject quad) characters = false →
  onCharacterQuad characters quad = characters.
Proof.
  intros Htype Hhas. unfold onCharacterQuad. by rewrite Htype, Hhas.
Qed.

Lemma characterMap_app pre post :
  characterMap (pre ++ post)
  = fold_left onCharacterQuad post (characterMap pre).
Proof. apply fold_left_app. Qed.

(** C5, as the code has it: the extractor is a single pass that records a
    triple only on a subject already registered. Swapping an adjacent type
    triple [t] and attribute triple [a] of one subject keeps the result when
    an earlier type assertion had registered the subject; when none had, the
    attribute triple placed first is ignored, and the result is that of the
    stream without it. *)
Theorem parseCharacters_type_then_attribute pre t a post :
  isCharacterType t = true →
  isCharacterType a = false →
  subject a = subject t →
  (JsMap.has (subject t) (characterMap pre) = true →
   parseCharactersFromTTL (pre ++ t :: a :: post)
   = parseCharactersFromTTL (pre ++ a :: t :: post))
  ∧ (JsMap.has (subject t) (characterMap pre) = false →
     parseCharactersFromTTL (pre ++ a :: t :: post)
     = parseCharactersFromTTL (pre ++ t :: post)).
Proof.
  intros Ht Ha Hsub. unfold parseCharactersFromTTL.
  rewrite !characterMap_app. cbn [fold_left]. split; intros Hhas.
  - rewrite (onCharacterQuad_registered (characterMap pre) t) by done.
    rewrite (onCharacterQuad_registered _ t); [done|done|].
    rewrite has_onCharacterQuad, Hhas. done.
  - rewrite (onCharacterQuad_unregistered _ a); [done|done|].
    by rewrite Hsub.
Qed.

Lemma parseCharacters_type_then_attribute_witness :
  let t := mkQuad "luke" rdf_type voc_Character in
  let a := mkQuad "luke" rdfs_label "Luke Skywalker" in
  isCharacterType t = true ∧ isCharacterType a = false
  ∧ subject a = subject t
  ∧ JsMap.has (subject t) (characterMap []) = false
  ∧ parseCharactersFromTTL ([] ++ a :: t :: [])
    = parseCharactersFromTTL ([] ++ t :: []).
Proof.
  intros t a.
  split; [reflexivity|]. split; [reflexivity|]. split; [reflexivity|].
  split; [reflexivity|].
  apply (parseCharacters_type_then_attribute [] t a []); reflexivity.
Defined.

(** C5, as stated, fails: with the label triple after the type triple the
    character is named, with the label triple before it the name stays
    empty. *)
Lemma parseCharacters_order_matters :
  ¬ (∀ pre t a post,
       isCharacterType t = true →
       isCharacterType a = false →
       subject a = subject t →
       parseCharactersFromTTL (pre ++ t :: a :: post)
       = parseCharactersFromTTL (pre ++ a :: t :: post)).
Proof.
  intros H.
  specialize (H [] (mkQuad "luke" rdf_type voc_Character)
                (mkQuad "luke" rdfs_label "Luke Skywalker") []
                eq_refl eq_refl eq_refl).
  vm_compute in H. discriminate H.
Qed.

End DataParserFacts.

(** ** The edge curve *)

Module ConnectionFacts.
Import Connection.
Local Open Scope R_scope.

Lemma Position_eq (p : Position) (a b : R) :
  x p = a → y p = b → p = mkPosition a b.
Proof. destruct p. cbn. by intros -> ->. Qed.

(** C3: the component pulls each endpoint towards the centre by the factor,
    [control1 = start + (center - start) * affinity] and
    [control2 = end + (center - end) * affinity], with the factor 0.85 in
    the component as shipped; at factor 0 the control points are the
    endpoints, at factor 1 both are the centre; the arrow direction is
    [endPos - control2]. *)
Theorem curve_control_points (startPos endPos : Position) (color : string)
    (isHighlighted : bool) (centerX centerY : R) :
  let draw affinity :=
    curve affinity startPos endPos color isHighlighted centerX centerY in
  Connection (mkProps (Some startPos) (Some endPos) color isHighlighted
                centerX centerY) = Js.Ok (draw AFFINITY_FACTOR)
  ∧ (∀ affinity,
       control1 (draw affinity)
       = mkPosition (x startPos + (centerX - x startPos) * affinity)
                    (y startPos + (centerY - y startPos) * affinity)
       ∧ control2 (draw affinity)
         = mkPosition (x endPos + (centerX - x endPos) * affinity)
                      (y endPos + (centerY - y endPos) * affinity)
       ∧ dx (draw affinity) = x endPos - x (control2 (draw affinity))
       ∧ dy (draw affinity) = y endPos - y (control2 (draw affinity))
       ∧ pathStart (draw affinity) = startPos
       ∧ pathEnd (draw affinity) = endPos)
  ∧ control1 (draw 0) = startPos
  ∧ control2 (draw 0) = endPos
  ∧ control1 (draw 1) = mkPosition centerX centerY
  ∧ control2 (draw 1) = mkPosition centerX centerY.
Proof.
  intros draw. subst draw. cbn. repeat split.
  - symmetry. apply Position_eq; ring.
  - symmetry. apply Position_eq; ring.
  - f_equal; ring.
  - f_equal; ring.
Qed.

End ConnectionFacts.

(** ** Interaction state *)

Module InteractionFacts.
Import Dashboard.

Lemma hoveredIs_true hovered s : hoveredIs hovered s = true ↔ hovered = Some s.
Proof.
  destruct hovered as [h|]; cbn; [|done].
  rewrite String.eqb_eq. split; congruence.
Qed.

(** C8: an edge is highlighted exactly when the hovered id is its source or
    its target; so the edge from [A] to [B] is highlighted while [A] is
    hovered iff it is while [B] is hovered, and in fact in both cases. *)
Theorem isHighlighted_symmetric (A B : string) :
  (∀ hovered conn,
     isHighlighted hovered conn = true
     ↔ hovered = Some (DataParser.source conn)
       ∨ hovered = Some (DataParser.target conn))
  ∧ (isHighlighted (Some A) (DataParser.mkEdge A B) = true
     ↔ isHighlighted (Some B) (DataParser.mkEdge A B) = true)
  ∧ isHighlighted (Some A) (DataParser.mkEdge A B) = true
  ∧ isHighlighted (Some B) (DataParser.mkEdge A B) = true.
Proof.
  assert (∀ hovered conn,
            isHighlighted hovered conn = true
            ↔ hovered = Some (DataParser.source conn)
              ∨ hovered = Some (DataParser.target conn)) as Hchar.
  { intros hovered conn. unfold isHighlighted.
    by rewrite orb_true_iff, !hoveredIs_true. }
  assert (isHighlighted (Some A) (DataParser.mkEdge A B) = true) as HA.
  { apply Hchar. by left. }
  assert (isHighlighted (Some B) (DataParser.mkEdge A B) = true) as HB.
  { apply Hchar. by right. }
  repeat split; auto; apply Hchar.
Qed.

(** C9, as the code has it: clicking a node stores the character and opens
    the sidebar; closing the sidebar clears the open flag only, and in every
    state leaves the stored character as it was. *)
Theorem handleSidebarClose_keeps_selection (character : DataParser.Character)
    (st : State) :
  selectedCharacter (handleNodeClick character st) = Some character
  ∧ isSidebarOpen (handleNodeClick character st) = true
  ∧ isSidebarOpen (handleSidebarClose st) = false
  ∧ selectedCharacter (handleSidebarClose st) = selectedCharacter st
  ∧ selectedCharacter (handleSidebarClose (handleNodeClick character st))
    = Some character.
Proof. by repeat split. Qed.

(** C9, as stated, fails: after a click on a character and the closing of
    the sidebar the character is still the selected one. *)
Lemma handleSidebarClose_does_not_deselect :
  ¬ (∀ character st,
       selectedCharacter (handleSidebarClose (handleNodeClick character st))
       = None).
Proof.
  intros H.
  specialize (H (DataParser.newCharacter "luke")
                (initialState (mkDimensions 800 600))).
  discriminate H.
Qed.

End InteractionFacts.

(** ** Traversals *)

Section ReduceFacts.
Context {A B : Type}.
Implicit Types (f : B → A → nat → B) (l : list A) (acc : B).


End ReduceFacts.

(** ** Grouping *)

Module GroupingFacts.
Import Dashboard.

Section Groups.
Context (groupBy : string).

Local Abbreviation key := (groupKeyOf groupBy).
Local Abbreviation bucket k characters :=
  (filter (λ char, key char = k) characters).

Lemma addToGroup_lookup acc char index k :
  addToGroup groupBy acc char index !! k
  = if decide (key char = k)
    then Some (default [] (acc !! k) ++ [char])
    else acc !! k.
Proof.
  unfold addToGroup. case_decide as Hk.
  - subst k. destruct (acc !! key char) as [members|] eqn:Hacc.
    + by rewrite lookup_alter_eq, Hacc.
    + by rewrite lookup_alter_eq, lookup_insert_eq.
  - destruct (acc !! key char); rewrite lookup_alter_ne by done; [done|].
    by rewrite lookup_insert_ne.
Qed.

Lemma groups_from_lookup characters k :
  ∀ acc index,
    Js.reduce_from (addToGroup groupBy) index characters acc !! k
    = match acc !! k, bucket k characters with
      | None, [] => None
      | o, members => Some (default [] o ++ members)
      end.
Proof.
  induction characters as [|char characters IH]; intros acc index.
  - cbn. destruct (acc !! k); cbn; [|done].
    by rewrite app_nil_r.
  - cbn [Js.reduce_from]. rewrite IH, addToGroup_lookup, filter_cons.
    case_decide as Hk; [|done].
    destruct (acc !! k); cbn; [by rewrite <- app_assoc | done].
Qed.

(** A bucket holds the characters of its key, in input order; a key no
    character has owns no bucket. *)
Lemma groups_lookup characters k :
  groups groupBy characters !! k
  = match bucket k characters with
    | [] => None
    | members => Some members
    end.
Proof.
  unfold groups, Js.reduce. rewrite groups_from_lookup, lookup_empty.
  by destruct (bucket k characters).
Qed.

Lemma groups_lookup_key characters char :
  char ∈ characters →
  groups groupBy characters !! key char
  = Some (bucket (key char) characters).
Proof.
  intros Hin. rewrite groups_lookup.
  destruct (bucket (key char) characters) eqn:Hb; [|done].
  by apply (filter_nil_not_elem_of _ _ char) in Hb.
Qed.

Lemma elem_of_Object_keys {V} (o : gmap string V) k :
  k ∈ Js.Object_keys o ↔ is_Some (o !! k).
Proof.
  unfold Js.Object_keys. rewrite list_elem_of_fmap. split.
  - intros [[k' v] [-> Hin]]. apply elem_of_map_to_list in Hin. by exists v.
  - intros [v Hv]. exists (k, v). split; [done|].
    by apply elem_of_map_to_list.
Qed.

Lemma elem_of_groupKeys characters k :
  k ∈ groupKeys groupBy characters
  ↔ ∃ char, char ∈ characters ∧ key char = k.
Proof.
  unfold groupKeys, Js.sort. rewrite merge_sort_Permutation.
  rewrite elem_of_Object_keys, groups_lookup. split.
  - destruct (bucket k characters) as [|char members] eqn:Hb.
    + by intros [? ?].
    + intros _. exists char.
      assert (char ∈ bucket k characters) as Hin
        by (rewrite Hb; apply list_elem_of_here).
      apply list_elem_of_filter in Hin as [Hk Hin]. done.
  - intros (char & Hin & <-). by rewrite <- groups_lookup, groups_lookup_key.
Qed.

Lemma groupKeys_sorted characters :
  StronglySorted String.le (groupKeys groupBy characters).
Proof. apply (StronglySorted_merge_sort String.le). Qed.

Lemma groupKeys_NoDup characters : NoDup (groupKeys groupBy characters).
Proof.
  unfold groupKeys, Js.sort. rewrite merge_sort_Permutation.
  apply NoDup_fst_map_to_list.
Qed.

(** The order in which the engine lists the keys does not matter: any
    arrangement of them sorts to [groupKeys]. *)
Lemma sort_keys_any_order characters keys :
  keys ≡ₚ Js.Object_keys (groups groupBy characters) →
  Js.sort keys = groupKeys groupBy characters.
Proof.
  intros Hperm. unfold groupKeys, Js.sort.
  apply (Sorted_unique String.le).
  - apply (Sorted_merge_sort String.le).
  - apply (Sorted_merge_sort String.le).
  - by rewrite !merge_sort_Permutation.
Qed.

Lemma groups_lookup_groupKeys characters k :
  k ∈ groupKeys groupBy characters →
  groups groupBy characters !! k = Some (bucket k characters).
Proof.
  intros (char & Hin & <-)%elem_of_groupKeys. by apply groups_lookup_key.
Qed.

End Groups.
End GroupingFacts.

(** ** The layout *)

Module LayoutFacts.
Import Dashboard.
Local Open Scope R_scope.

Local Abbreviation ids characters := (DataParser.id <$> characters).

(** *** Placing the members of one group *)

Section PlaceMembers.
Context (centerX centerY radius currentAngle angleStep : R).
Context (groupKey : string) (groupIndex : nat).

Local Abbreviation place :=
  (placeMember centerX centerY radius currentAngle angleStep
     groupKey groupIndex).

Lemma placeMembers_dom members :
  ∀ index acc,
    dom (Js.reduce_from place index members acc).1
    = dom acc.1 ∪ list_to_set (ids members)
    ∧ dom (Js.reduce_from place index members acc).2
      = dom acc.2 ∪ list_to_set (ids members).
Proof.
  induction members as [|char members IH]; intros index acc.
  - cbn. set_solver.
  - cbn [Js.reduce_from]. destruct (IH (S index) (place acc char index))
      as [-> ->].
    cbn [placeMember fst snd]. rewrite !dom_insert_L. set_solver.
Qed.

End PlaceMembers.

(** *** Walking the groups *)

Section PlaceGroups.
Context (groups : gmap string (list DataParser.Character)).
Context (totalCharacters : nat) (usableAngle centerX centerY radius : R).

Local Abbreviation place :=
  (placeGroup groups totalCharacters usableAngle centerX centerY radius).
Local Abbreviation members k := (default [] (groups !! k)).
Local Abbreviation span k :=
  (groupAngleSpan (length (members k)) totalCharacters usableAngle).

Lemma placeGroups_names keys :
  ∀ index acc,
    name <$> groupInfoArray (Js.reduce_from place index keys acc)
    = (name <$> groupInfoArray acc) ++ keys.
Proof.
  induction keys as [|k keys IH]; intros index acc; cbn [Js.reduce_from].
  - by rewrite app_nil_r.
  - rewrite IH. cbn [placeGroup groupInfoArray].
    by rewrite fmap_app, <- app_assoc.
Qed.

Lemma placeGroups_spans keys :
  ∀ index acc,
    (λ g, endAngle g - startAngle g)
      <$> groupInfoArray (Js.reduce_from place index keys acc)
    = ((λ g, endAngle g - startAngle g) <$> groupInfoArray acc)
      ++ ((λ k, span k) <$> keys).
Proof.
  induction keys as [|k keys IH]; intros index acc; cbn [Js.reduce_from].
  - by rewrite app_nil_r.
  - rewrite IH. cbn [placeGroup groupInfoArray].
    rewrite fmap_app, <- app_assoc. cbn. do 2 f_equal. ring.
Qed.

Lemma placeGroups_currentAngle keys :
  ∀ index acc,
    currentAngle (Js.reduce_from place index keys acc)
    = currentAngle acc
      + (Geometry.sum ((λ k, span k) <$> keys)
         + INR (length keys) * gapAngle).
Proof.
  induction keys as [|k keys IH]; intros index acc; cbn [Js.reduce_from].
  - cbn. ring.
  - rewrite IH. cbn [placeGroup currentAngle length fmap list_fmap].
    rewrite S_INR. unfold Geometry.sum. cbn [foldr]. ring.
Qed.

Lemma placeGroups_dom keys :
  ∀ index acc,
    dom (placedPositions (Js.reduce_from place index keys acc))
    = dom (placedPositions acc)
      ∪ list_to_set (ids (keys ≫= λ k, members k))
    ∧ dom (placedGroups (Js.reduce_from place index keys acc))
      = dom (placedGroups acc)
        ∪ list_to_set (ids (keys ≫= λ k, members k)).
Proof.
  induction keys as [|k keys IH]; intros index acc; cbn [Js.reduce_from].
  - cbn. set_solver.
  - destruct (IH (S index) (place acc k index)) as [-> ->].
    cbn [placeGroup placedPositions placedGroups]. unfold Js.reduce.
    match goal with
    | |- context [Js.reduce_from ?f ?i ?l ?a] =>
        destruct (placeMembers_dom centerX centerY radius (currentAngle acc)
                    (span k / INR (length (members k))) k index
                    (members k) i a) as [-> ->]
    end.
    cbn [fst snd]. rewrite bind_cons, fmap_app, !list_to_set_app_L.
    set_solver.
Qed.

End PlaceGroups.

(** *** Bucket sizes *)

Lemma count_key (keys : list string) (k : string) :
  NoDup keys → k ∈ keys →
  sum_list ((λ k', if decide (k = k') then 1%nat else 0%nat) <$> keys) = 1%nat.
Proof.
  induction 1 as [|k' keys Hnotin Hnodup IH]; intros Hin.
  - by apply elem_of_nil in Hin.
  - cbn. case_decide as Hk.
    + subst k'. f_equal.
      clear IH Hin Hnodup. induction keys as [|k'' keys IH]; [done|].
      apply not_elem_of_cons in Hnotin as [Hne Hnotin].
      cbn. case_decide; [done|]. by apply IH.
    + apply elem_of_cons in Hin as [?|Hin]; [done|]. by apply IH.
Qed.

(** The buckets of a list by a key function have the list's length in
    total. *)
Lemma bucket_sizes {A} (f : A → string) (keys : list string) (l : list A) :
  NoDup keys → (∀ a, a ∈ l → f a ∈ keys) →
  sum_list ((λ k, length (filter (λ a, f a = k) l)) <$> keys) = length l.
Proof.
  intros Hnodup. induction l as [|a l IH]; intros Hkeys.
  - clear. induction keys as [|k keys IHk]; [done|]. cbn. apply IHk.
  - transitivity
      (sum_list ((λ k, if decide (f a = k) then 1%nat else 0%nat) <$> keys)
       + sum_list ((λ k, length (filter (λ a, f a = k) l)) <$> keys))%nat.
    + clear. induction keys as [|k keys IHk]; [done|].
      rewrite !fmap_cons. cbn [sum_list_with]. rewrite IHk, filter_cons.
      unfold id. case_decide; cbn; lia.
    + rewrite count_key, IH; [done| |done|].
      * intros a' Ha'. apply Hkeys. by right.
      * apply Hkeys. by left.
Qed.

Lemma groupKeys_sizes groupBy characters :
  sum_list
    ((λ k, length (default [] (groups groupBy characters !! k)))
       <$> groupKeys groupBy characters)
  = length characters.
Proof.
  rewrite <- (bucket_sizes (groupKeyOf groupBy)
                (groupKeys groupBy characters) characters).
  - f_equal. apply list_fmap_ext. intros i k Hk.
    apply list_elem_of_lookup_2 in Hk.
    by rewrite GroupingFacts.groups_lookup_groupKeys.
  - apply GroupingFacts.groupKeys_NoDup.
  - intros char Hin. apply GroupingFacts.elem_of_groupKeys. eauto.
Qed.

Lemma sum_spans (size : string → nat) (total : nat) (usable : R)
    (keys : list string) :
  Geometry.sum ((λ k, groupAngleSpan (size k) total usable) <$> keys)
  = INR (sum_list (size <$> keys)) / INR total * usable.
Proof.
  unfold Geometry.sum, groupAngleSpan.
  induction keys as [|k keys IH]; cbn.
  - unfold Rdiv. ring.
  - rewrite IH, plus_INR. unfold Rdiv. ring.
Qed.

(** *** The memo as a whole *)

Lemma reduce_insert_dom {A V} (g : A → string) (h : A → nat → V) l :
  ∀ index (acc : gmap string V),
    dom (Js.reduce_from (λ acc a index, <[g a := h a index]> acc) index l acc)
    = dom acc ∪ list_to_set (g <$> l).
Proof.
  induction l as [|a l IH]; intros index acc; cbn [Js.reduce_from].
  - cbn. set_solver.
  - rewrite IH, dom_insert_L. set_solver.
Qed.

Lemma distance_onCircle (cx cy r angle : R) :
  0 <= r → Geometry.distance (Geometry.onCircle cx cy r angle) cx cy = r.
Proof.
  intros Hr. unfold Geometry.distance, Geometry.onCircle. cbn.
  replace ((cx + r * cos angle - cx)² + (cy + r * sin angle - cy)²)
    with (r² * ((sin angle)² + (cos angle)²)) by (unfold Rsqr; ring).
  rewrite sin2_cos2, Rmult_1_r. by apply sqrt_Rsqr.
Qed.

Section Layout.
Context (characters : list DataParser.Character).
Context (dimensions : Dimensions) (groupBy : string).

Local Abbreviation cX := (width dimensions / 2).
Local Abbreviation cY := (height dimensions / 2).
Local Abbreviation rad :=
  (Rmin (width dimensions) (height dimensions) * 0.35).
Local Abbreviation keys := (groupKeys groupBy characters).
Local Abbreviation members k :=
  (default [] (groups groupBy characters !! k)).
Local Abbreviation final :=
  (Js.reduce
     (placeGroup (groups groupBy characters) (length characters)
        (usableAngle (length keys)) cX cY rad)
     keys (mkPlacement ∅ [] ∅ (- PI / 2))).

Lemma layout_grouped :
  groupBy ≠ "none" →
  layout characters dimensions groupBy
  = mkLayout (placedPositions final) (Some (groupInfoArray final))
      (placedGroups final).
Proof.
  intros Hgrouped. unfold layout.
  by destruct (String.eqb_spec groupBy "none").
Qed.

Lemma final_names : name <$> groupInfoArray final = keys.
Proof. unfold Js.reduce. by rewrite placeGroups_names. Qed.

Lemma final_spans :
  (λ g, endAngle g - startAngle g) <$> groupInfoArray final
  = (λ k, groupAngleSpan (length (members k)) (length characters)
            (usableAngle (length keys))) <$> keys.
Proof. unfold Js.reduce. by rewrite placeGroups_spans. Qed.

Lemma members_ids :
  list_to_set (C := gset string) (ids (keys ≫= λ k, members k))
  = list_to_set (ids characters).
Proof.
  apply set_eq. intros id. rewrite !elem_of_list_to_set, !list_elem_of_fmap.
  split.
  - intros (char & -> & (k & Hmem & Hk)%list_elem_of_bind).
    rewrite GroupingFacts.groups_lookup_groupKeys in Hmem by done.
    apply list_elem_of_filter in Hmem as [_ Hin]. eauto.
  - intros (char & -> & Hin). exists char. split; [done|].
    apply list_elem_of_bind. exists (groupKeyOf groupBy char). split.
    + rewrite GroupingFacts.groups_lookup_key by done.
      by apply list_elem_of_filter.
    + apply GroupingFacts.elem_of_groupKeys. eauto.
Qed.

(** The characters are exactly the ids that have a position, and exactly
    those that have a group record. *)
Lemma layout_dom :
  dom (positions (layout characters dimensions groupBy))
  = list_to_set (ids characters)
  ∧ dom (characterGroups (layout characters dimensions groupBy))
    = list_to_set (ids characters).
Proof.
  destruct (decide (groupBy = "none")) as [->|Hgrouped].
  - unfold layout. cbn [String.eqb Ascii.eqb Bool.eqb positions characterGroups].
    unfold Js.reduce. split.
    + rewrite (reduce_insert_dom DataParser.id
                 (λ char index,
                    Connection.mkPosition
                      (cX + rad * cos (INR index
                                       * (2 * PI / INR (length characters))
                                       - PI / 2))
                      (cY + rad * sin (INR index
                                       * (2 * PI / INR (length characters))
                                       - PI / 2)))).
      set_solver.
    + rewrite (reduce_insert_dom DataParser.id
                 (λ _ _, mkCharacterGroup "default" 0)).
      set_solver.
  - rewrite layout_grouped by done. cbn [positions characterGroups].
    unfold Js.reduce.
    match goal with
    | |- context [Js.reduce_from ?f ?i ?l ?a] =>
        destruct (placeGroups_dom (groups groupBy characters)
                    (length characters) (usableAngle (length keys))
                    cX cY rad l i a) as [-> ->]
    end.
    cbn [placedPositions placedGroups]. rewrite members_ids. set_solver.
Qed.


Lemma rad_nonneg :
  0 <= width dimensions → 0 <= height dimensions → 0 <= rad.
Proof.
  intros Hw Hh. apply Rmult_le_pos; [|lra].
  by apply Rmin_glb.
Qed.

End Layout.

(** *** Angular budget *)

(** C1: in a grouped layout of a non-empty character list whose bucket
    keys are none of the names inherited from [Object.prototype] (on those
    the [groups] reduce throws and there is no layout), the group records
    carry the sorted keys, the record of a bucket spans
    [(bucketSize / totalNodes) * usableAngle], and the spans of all buckets
    plus one gap of 0.05 per bucket add up to the full turn [2 * PI]. *)
Theorem grouped_spans_and_gaps_fill_circle
    (characters : list DataParser.Character) (dimensions : Dimensions)
    (groupBy : string) :
  characters ≠ [] →
  groupBy ≠ "none" →
  Js.plainKeys (groupKeyOf groupBy <$> characters) →
  ∃ infos,
    groupInfo (layout characters dimensions groupBy) = Some infos
    ∧ name <$> infos = groupKeys groupBy characters
    ∧ (λ g, endAngle g - startAngle g) <$> infos
      = (λ k, INR (length (filter (λ char, groupKeyOf groupBy char = k)
                             characters))
              / INR (length characters)
              * (2 * PI - 0.05 * INR (length (groupKeys groupBy characters))))
        <$> groupKeys groupBy characters
    ∧ Geometry.sum ((λ g, endAngle g - startAngle g) <$> infos)
      + INR (length infos) * 0.05 = 2 * PI.
Proof.
  intros Hne Hgrouped _. rewrite layout_grouped by done. cbn [groupInfo].
  eexists. split; [done|]. split; [apply final_names|]. split.
  - rewrite final_spans. apply list_fmap_ext. intros i k Hk.
    apply list_elem_of_lookup_2 in Hk.
    by rewrite GroupingFacts.groups_lookup_groupKeys.
  - rewrite final_spans, sum_spans, groupKeys_sizes.
    rewrite <- (length_fmap name), final_names.
    unfold usableAngle, gapAngle.
    assert (INR (length characters) ≠ 0) as Hlen.
    { apply not_0_INR. by destruct characters. }
    field. exact Hlen.
Qed.

Lemma grouped_spans_and_gaps_fill_circle_witness :
  Sample.characters ≠ [] ∧ "species" ≠ "none"
  ∧ Js.plainKeys (groupKeyOf "species" <$> Sample.characters)
  ∧ ∃ infos,
      groupInfo (layout Sample.characters Sample.window "species")
      = Some infos
      ∧ Geometry.sum ((λ g, endAngle g - startAngle g) <$> infos)
        + INR (length infos) * 0.05 = 2 * PI.
Proof.
  assert (Js.plainKeys (groupKeyOf "species" <$> Sample.characters))
    as Hplain.
  { unfold Js.plainKeys. apply (bool_decide_unpack _). vm_compute. exact I. }
  split; [done|]. split; [done|]. split; [exact Hplain|].
  destruct (grouped_spans_and_gaps_fill_circle
              Sample.characters Sample.window "species")
    as (infos & Hinfos & _ & _ & Hsum); [done|done|exact Hplain|].
  exists infos. split; assumption.
Defined.

(** *** Two buckets *)

(** The group records of a layout with exactly two buckets. *)
Lemma layout_two_groups (characters : list DataParser.Character)
    (dimensions : Dimensions) (groupBy k1 k2 : string) :
  groupBy ≠ "none" →
  groupKeys groupBy characters = [k1; k2] →
  let size k :=
    length (filter (λ char, groupKeyOf groupBy char = k) characters) in
  let span k := INR (size k) / INR (length characters)
                * (2 * PI - 0.05 * INR 2) in
  length characters = (size k1 + size k2)%nat
  ∧ groupInfo (layout characters dimensions groupBy)
    = Some [
        mkGroupInfo k1 (- PI / 2) (- PI / 2 + span k1)
          (width dimensions / 2) (height dimensions / 2)
          (Rmin (width dimensions) (height dimensions) * 0.35);
        mkGroupInfo k2 (- PI / 2 + (span k1 + 0.05))
          (- PI / 2 + (span k1 + 0.05) + span k2)
          (width dimensions / 2) (height dimensions / 2)
          (Rmin (width dimensions) (height dimensions) * 0.35)
      ].
Proof.
  intros Hgrouped Hkeys size span.
  assert (∀ k, k ∈ [k1; k2] →
               default [] (groups groupBy characters !! k)
               = filter (λ char, groupKeyOf groupBy char = k) characters)
    as Hmembers.
  { intros k Hk. rewrite <- Hkeys in Hk.
    by rewrite GroupingFacts.groups_lookup_groupKeys. }
  split.
  - rewrite <- (groupKeys_sizes groupBy characters), Hkeys. cbn.
    rewrite !Hmembers by set_solver. subst size. cbn. lia.
  - rewrite layout_grouped by done. cbn [groupInfo]. rewrite Hkeys.
    cbn [Js.reduce Js.reduce_from placeGroup groupInfoArray currentAngle
         app length].
    rewrite !Hmembers by set_solver. done.
Qed.

(** C6, as the code has it: with two buckets of sizes 3 and 1 the layout
    reserves one gap of 0.05 per bucket, so the first bucket spans
    [3/4 * (2 * PI - 2 * 0.05)] and the second [1/4 * (2 * PI - 2 * 0.05)];
    the first starts at [- PI / 2], the second 0.05 after the end of the
    first, and the second gap of 0.05 closes the turn. *)
Theorem two_buckets_three_and_one (characters : list DataParser.Character)
    (dimensions : Dimensions) (groupBy k1 k2 : string) :
  groupBy ≠ "none" →
  groupKeys groupBy characters = [k1; k2] →
  length (filter (λ char, groupKeyOf groupBy char = k1) characters) = 3%nat →
  length (filter (λ char, groupKeyOf groupBy char = k2) characters) = 1%nat →
  ∃ g1 g2,
    groupInfo (layout characters dimensions groupBy) = Some [g1; g2]
    ∧ name g1 = k1 ∧ name g2 = k2
    ∧ endAngle g1 - startAngle g1 = 3 / 4 * (2 * PI - 2 * 0.05)
    ∧ endAngle g2 - startAngle g2 = 1 / 4 * (2 * PI - 2 * 0.05)
    ∧ startAngle g1 = - PI / 2
    ∧ startAngle g2 = endAngle g1 + 0.05
    ∧ endAngle g2 + 0.05 = startAngle g1 + 2 * PI.
Proof.
  intros Hgrouped Hkeys Hsize1 Hsize2.
  destruct (layout_two_groups characters dimensions groupBy k1 k2)
    as [Hlen Hinfo]; [done|done|].
  rewrite Hsize1, Hsize2 in Hlen. rewrite Hinfo, Hlen, Hsize1, Hsize2.
  do 2 eexists. split; [done|]. cbn [name startAngle endAngle].
  cbn [INR Nat.add]. repeat split; lra.
Qed.

Lemma two_buckets_three_and_one_witness :
  "species" ≠ "none"
  ∧ groupKeys "species" Sample.characters = ["Droid"; "Human"]
  ∧ ∃ g1 g2,
      groupInfo (layout Sample.characters Sample.window "species")
      = Some [g1; g2]
      ∧ endAngle g1 - startAngle g1 = 3 / 4 * (2 * PI - 2 * 0.05)
      ∧ endAngle g2 - startAngle g2 = 1 / 4 * (2 * PI - 2 * 0.05).
Proof.
  split; [done|]. split; [by vm_compute|].
  destruct (two_buckets_three_and_one Sample.characters Sample.window
              "species" "Droid" "Human")
    as (g1 & g2 & Hinfo & _ & _ & Hspan1 & Hspan2 & _);
    [done | by vm_compute | by vm_compute | by vm_compute |].
  exists g1, g2. split; [exact Hinfo|]. split; assumption.
Defined.

(** C6, as stated, fails: on the sample graph, three droids and one human
    grouped by species, no pair of group records spans
    [3/4 * (2 * PI - 0.05)] and [1/4 * (2 * PI - 0.05)]. *)
Lemma two_buckets_not_one_gap :
  ¬ (∃ g1 g2,
       groupInfo (layout Sample.characters Sample.window "species")
       = Some [g1; g2]
       ∧ endAngle g1 - startAngle g1 = 3 / 4 * (2 * PI - 0.05)
       ∧ endAngle g2 - startAngle g2 = 1 / 4 * (2 * PI - 0.05)).
Proof.
  intros (g1 & g2 & Hinfo & Hspan1 & _).
  destruct (layout_two_groups Sample.characters Sample.window
              "species" "Droid" "Human")
    as [_ Hcode]; [done | by vm_compute |].
  rewrite Hcode in Hinfo. injection Hinfo as <- _.
  cbn [startAngle endAngle] in Hspan1.
  replace (length (filter (λ char, groupKeyOf "species" char = "Droid")
                     Sample.characters)) with 3%nat in Hspan1
    by (by vm_compute).
  replace (length Sample.characters) with 4%nat in Hspan1 by done.
  cbn [INR] in Hspan1. lra.
Qed.

(** *** Radius *)





End LayoutFacts.

(** ** The grouping resolver *)

Module ResolverFacts.
Import Dashboard.

(** C2: for the groupings by species, gender and films and characters
    whose bucket keys are none of the names inherited from
    [Object.prototype] (on those the [groups] reduce throws), a character
    with the attribute gets the attribute as key (its species, its gender,
    or its number of films followed by [" films"]), a character without it
    (empty species, empty gender, no film) gets the key ["Unknown"], and
    each character sits in the bucket of its key; the keys walked by the
    layout, which are the names of the emitted group records in order, are
    the distinct keys of the characters in ascending lexicographic order;
    and the bucket of a key is the sublist of the input made of the
    characters of that key, in input order. *)
Theorem groups_stable_sorted_partition
    (characters : list DataParser.Character) (dimensions : Dimensions)
    (groupBy : string) :
  Js.plainKeys (groupKeyOf groupBy <$> characters) →
  (∀ char,
     char ∈ characters →
     (groupBy = "species" → DataParser.species char ≠ "" →
      groupKeyOf groupBy char = DataParser.species char)
     ∧ (groupBy = "gender" → DataParser.gender char ≠ "" →
        groupKeyOf groupBy char = DataParser.gender char)
     ∧ (groupBy = "films" → DataParser.films char ≠ [] →
        groupKeyOf groupBy char
        = pretty (length (DataParser.films char)) +:+ " films")
     ∧ ∃ members,
         groups groupBy characters !! groupKeyOf groupBy char = Some members
         ∧ char ∈ members)
  ∧ (∀ char,
       char ∈ characters →
       (groupBy = "species" ∧ DataParser.species char = "")
       ∨ (groupBy = "gender" ∧ DataParser.gender char = "")
       ∨ (groupBy = "films" ∧ DataParser.films char = []) →
       groupKeyOf groupBy char = "Unknown"
       ∧ ∃ members, groups groupBy characters !! "Unknown" = Some members
                    ∧ char ∈ members)
  ∧ StronglySorted String.le (groupKeys groupBy characters)
  ∧ NoDup (groupKeys groupBy characters)
  ∧ (∀ k, k ∈ groupKeys groupBy characters
          ↔ ∃ char, char ∈ characters ∧ groupKeyOf groupBy char = k)
  ∧ (∀ k, k ∈ groupKeys groupBy characters →
          groups groupBy characters !! k
          = Some (filter (λ char, groupKeyOf groupBy char = k) characters))
  ∧ (groupBy ∈ ["species"; "gender"; "films"] →
     (λ infos : list GroupInfo, name <$> infos)
       <$> groupInfo (layout characters dimensions groupBy)
     = Some (groupKeys groupBy characters)).
Proof.
  intros _.
  assert (∀ char, char ∈ characters →
            ∃ members,
              groups groupBy characters !! groupKeyOf groupBy char
              = Some members
              ∧ char ∈ members) as Hbucket.
  { intros char Hin.
    exists (filter (λ char', groupKeyOf groupBy char' = groupKeyOf groupBy char)
              characters).
    split; [by apply GroupingFacts.groups_lookup_key|].
    by apply list_elem_of_filter. }
  split; [|split; [|split; [|split; [|split; [|split]]]]].
  - intros char Hin.
    split; [|split; [|split; [|by apply Hbucket]]].
    + intros -> Hspecies. unfold groupKeyOf, Js.truthy.
      apply String.eqb_neq in Hspecies. by rewrite Hspecies.
    + intros -> Hgender. unfold groupKeyOf, Js.truthy.
      apply String.eqb_neq in Hgender. by rewrite Hgender.
    + intros -> Hfilms. unfold groupKeyOf.
      by destruct (DataParser.films char).
  - intros char Hin Hlacks.
    assert (groupKeyOf groupBy char = "Unknown") as Hkey.
    { unfold groupKeyOf.
      destruct Hlacks as [[-> Hempty]|[[-> Hempty]|[-> Hempty]]];
        by rewrite Hempty. }
    split; [done|]. rewrite <- Hkey. by apply Hbucket.
  - apply GroupingFacts.groupKeys_sorted.
  - apply GroupingFacts.groupKeys_NoDup.
  - apply GroupingFacts.elem_of_groupKeys.
  - apply GroupingFacts.groups_lookup_groupKeys.
  - intros Hgrouped.
    rewrite LayoutFacts.layout_grouped by set_solver.
    cbn [groupInfo fmap option_fmap option_map].
    f_equal. apply LayoutFacts.final_names.
Qed.

Lemma groups_stable_sorted_partition_witness :
  Js.plainKeys (groupKeyOf "species" <$> Sample.characters)
  ∧ groupKeyOf "species" (Sample.character "D" "Human") = "Human"
  ∧ groupKeys "species" Sample.characters = ["Droid"; "Human"]
  ∧ groups "species" Sample.characters !! "Droid"
    = Some [Sample.character "A" "Droid"; Sample.character "B" "Droid";
            Sample.character "C" "Droid"].
Proof.
  assert (Js.plainKeys (groupKeyOf "species" <$> Sample.characters))
    as Hplain.
  { unfold Js.plainKeys. apply (bool_decide_unpack _). vm_compute. exact I. }
  destruct (groups_stable_sorted_partition Sample.characters Sample.window
              "species" Hplain)
    as (Hkey & _ & _ & _ & _ & Hmembers & _).
  assert (groupKeys "species" Sample.characters = ["Droid"; "Human"])
    as Hkeys by (by vm_compute).
  split; [exact Hplain|]. split; [|split; [exact Hkeys|]].
  - apply (Hkey (Sample.character "D" "Human")); [|reflexivity|done].
    unfold Sample.characters.
    do 3 apply list_elem_of_further. apply list_elem_of_here.
  - rewrite (Hmembers "Droid"); [reflexivity|].
    rewrite Hkeys. apply list_elem_of_here.
Defined.

End ResolverFacts.

(** ** The render pass *)

Module RenderFacts.
Import Dashboard.
Local Open Scope R_scope.

Lemma mapM_Ok {A B} (f : A → Js.Result B) (g : A → B) (l : list A) :
  (∀ a, a ∈ l → f a = Js.Ok (g a)) → Js.mapM f l = Js.Ok (g <$> l).
Proof.
  induction l as [|a l IH]; intros Hf; [done|].
  cbn. rewrite Hf by left. cbn. rewrite IH; [done|].
  intros a' Ha'. apply Hf. by right.
Qed.

(** *** Connections *)

Lemma renderConnection_Ok positions hovered centerX centerY conn :
  renderConnection positions hovered centerX centerY conn
  = Js.Ok (connectionElement positions hovered centerX centerY conn).
Proof.
  unfold renderConnection, connectionElement.
  by destruct (positions !! DataParser.source conn),
              (positions !! DataParser.target conn).
Qed.



(** *** The hovered node's neighbours *)

Lemma elem_of_connectedCharacters hovered connections id :
  id ∈ connectedCharacters hovered connections
  ↔ ∃ h conn,
      hovered = Some h ∧ h ≠ "" ∧ In conn connections
      ∧ ((DataParser.source conn = h ∧ DataParser.target conn = id)
         ∨ (DataParser.target conn = h ∧ DataParser.source conn = id)).
Proof.
  unfold connectedCharacters. destruct hovered as [h|]; [|set_solver].
  unfold Js.truthy. destruct (String.eqb_spec h "") as [->|Hne]; cbn [negb].
  { set_solver. }
  unfold Js.reduce. generalize 0%nat.
  assert (∀ (acc : gset string) (index : nat),
            id ∈ Js.reduce_from
                   (λ (connected : gset string) conn (_ : nat),
                      let connected :=
                        if String.eqb (DataParser.source conn) h
                        then {[DataParser.target conn]} ∪ connected
                        else connected in
                      if String.eqb (DataParser.target conn) h
                      then {[DataParser.source conn]} ∪ connected
                      else connected)
                   index connections acc
            ↔ id ∈ acc
              ∨ ∃ conn, In conn connections
                 ∧ ((DataParser.source conn = h
                     ∧ DataParser.target conn = id)
                    ∨ (DataParser.target conn = h
                       ∧ DataParser.source conn = id))) as Hfold.
  { induction connections as [|conn conns IH]; intros acc index.
    - cbn. naive_solver.
    - cbn [Js.reduce_from]. rewrite IH. cbn [In].
      destruct (String.eqb_spec (DataParser.source conn) h),
               (String.eqb_spec (DataParser.target conn) h);
        set_solver. }
  intros index. rewrite Hfold. split.
  - intros [Hin|(conn & Hin & Hends)]; [set_solver|]. by exists h, conn.
  - intros (h' & conn & [= <-] & _ & Hin & Hends). right. by exists conn.
Qed.


(** *** Nodes *)

Lemma mapM_total {A B} (f : A → Js.Result B) (l : list A) :
  (∀ a, a ∈ l → ∃ b, f a = Js.Ok b) →
  ∃ bs, Js.mapM f l = Js.Ok bs ∧ Forall2 (λ a b, f a = Js.Ok b) l bs.
Proof.
  induction l as [|a l IH]; intros Hf.
  - exists []. by split.
  - destruct (Hf a) as [b Hb]; [by left|].
    destruct IH as (bs & Hbs & Hall).
    { intros a' Ha'. apply Hf. by right. }
    exists (b :: bs). cbn. rewrite Hb. cbn. rewrite Hbs. cbn.
    split; [done|]. by constructor.
Qed.


(** A character of the list the layout was computed from is rendered: its
    position and its group record are both there. *)
Lemma renderNode_layout characters dimensions groupBy groupBy' hovered
    connected centerX centerY char :
  char ∈ characters →
  let l := layout characters dimensions groupBy in
  ∃ props,
    renderNode l groupBy' hovered connected centerX centerY char
    = Js.Ok (Some props)
    ∧ character props = char
    ∧ positions l !! DataParser.id char = Some (position props)
    ∧ isHovered props = hoveredIs hovered (DataParser.id char)
    ∧ isConnectedToHovered props
      = bool_decide (DataParser.id char ∈ connected).
Proof.
  intros Hin. cbv zeta.
  set (l := layout characters dimensions groupBy).
  destruct (LayoutFacts.layout_dom characters dimensions groupBy)
    as [Hpos Hgroups]. fold l in Hpos, Hgroups.
  assert (DataParser.id char
          ∈ (list_to_set (DataParser.id <$> characters) : gset string))
    as Hid.
  { apply elem_of_list_to_set, list_elem_of_fmap. eauto. }
  assert (is_Some (positions l !! DataParser.id char)) as [p Hp].
  { apply elem_of_dom. by rewrite Hpos. }
  assert (is_Some (characterGroups l !! DataParser.id char)) as [gd Hgd].
  { apply elem_of_dom. by rewrite Hgroups. }
  unfold renderNode. rewrite Hp, Hgd. eexists. split; [done|]. done.
Qed.


(** *** Edges to unknown ids *)



End RenderFacts.

(** * Further properties *)

(** ** More on the insertion-ordered map *)

Section JsMapMoreFacts.
Context {V : Type}.
Implicit Types (m : JsMap.t V) (k : string) (f g : V → V).

Lemma JsMap_has_elem_of k m : JsMap.has k m = true ↔ k ∈ m.*1.
Proof.
  unfold JsMap.has. induction m as [|[a v] m IH]; cbn.
  - split; [done | by intros ?%elem_of_nil].
  - rewrite orb_true_iff, IH, elem_of_cons, String.eqb_eq. naive_solver.
Qed.

Lemma JsMap_has_false k m : JsMap.has k m = false ↔ k ∉ m.*1.
Proof.
  rewrite <- JsMap_has_elem_of. by destruct (JsMap.has k m).
Qed.

Lemma JsMap_update_keys k f m : (JsMap.update k f m).*1 = m.*1.
Proof.
  unfold JsMap.update. induction m as [|[a v] m IH]; [done|].
  cbn. rewrite <- IH. by destruct (String.eqb a k).
Qed.

Lemma JsMap_update_absent k f m :
  JsMap.has k m = false → JsMap.update k f m = m.
Proof.
  unfold JsMap.has, JsMap.update. induction m as [|[a v] m IH]; [done|].
  cbn. intros [Ha Hm]%orb_false_iff. rewrite Ha. by rewrite IH.
Qed.

Lemma JsMap_set_absent k v m :
  JsMap.has k m = false → JsMap.set k v m = m ++ [(k, v)].
Proof. intros Hk. unfold JsMap.set. by rewrite Hk. Qed.

Lemma JsMap_update_app k f m1 m2 :
  JsMap.update k f (m1 ++ m2) = JsMap.update k f m1 ++ JsMap.update k f m2.
Proof. apply map_app. Qed.

Lemma JsMap_update_update k f g m :
  JsMap.update k f (JsMap.update k g m) = JsMap.update k (f ∘ g) m.
Proof.
  unfold JsMap.update. induction m as [|[a v] m IH]; [done|].
  cbn. rewrite IH. destruct (String.eqb a k) eqn:Ha; cbn; by rewrite Ha.
Qed.

Lemma JsMap_update_ext k f g m :
  (∀ v, f v = g v) → JsMap.update k f m = JsMap.update k g m.
Proof.
  intros Hfg. unfold JsMap.update. induction m as [|[a v] m IH]; [done|].
  cbn. rewrite IH. destruct (String.eqb a k); [|done]. by rewrite Hfg.
Qed.

Lemma JsMap_update_comm k1 k2 f g m :
  k1 ≠ k2 →
  JsMap.update k1 f (JsMap.update k2 g m)
  = JsMap.update k2 g (JsMap.update k1 f m).
Proof.
  intros Hne. unfold JsMap.update. induction m as [|[a v] m IH]; [done|].
  cbn. rewrite IH. f_equal.
  destruct (String.eqb a k1) eqn:H1, (String.eqb a k2) eqn:H2;
    cbn; rewrite ?H1, ?H2; try done.
  apply String.eqb_eq in H1, H2. congruence.
Qed.

Lemma JsMap_update_Forall (P : string → V → Prop) k f m :
  Forall (λ e, P e.1 e.2) m →
  (∀ v, P k v → P k (f v)) →
  Forall (λ e, P e.1 e.2) (JsMap.update k f m).
Proof.
  intros Hm Hf. unfold JsMap.update. induction Hm as [|[a v] m Ha Hm IH].
  - constructor.
  - cbn. constructor; [|done].
    destruct (String.eqb_spec a k) as [->|]; cbn; [by apply Hf | done].
Qed.
End JsMapMoreFacts.


(** ** More on the extractors *)

Module ParserExtras.
Import DataParser.

(** The record invariant of the extractor: a character is stored under its
    own id, its films are distinct, and its species is its type. *)
Local Abbreviation tidy key char :=
  (id char = key ∧ NoDup (films char) ∧ species char = type char).

Lemma existsb_eqb_false (object : string) (l : list string) :
  existsb (String.eqb object) l = false → object ∉ l.
Proof.
  induction l as [|x l IH]; cbn.
  - intros _. apply not_elem_of_nil.
  - intros [Hx Hl]%orb_false_iff. apply not_elem_of_cons. split.
    + by apply String.eqb_neq.
    + by apply IH.
Qed.

Lemma existsb_eqb_true (object : string) (l : list string) :
  existsb (String.eqb object) l = true → object ∈ l.
Proof.
  induction l as [|x l IH]; cbn; [done|].
  intros [Hx|Hl]%orb_true_iff.
  - apply String.eqb_eq in Hx as ->. left.
  - right. by apply IH.
Qed.

Lemma applyPredicate_id predicate object char :
  id (applyPredicate predicate object char) = id char.
Proof.
  destruct char. unfold applyPredicate.
  repeat (destruct (String.eqb predicate _); [done|]).
  by destruct (String.eqb predicate _); [destruct (existsb _ _)|].
Qed.

Lemma applyPredicate_tidy key predicate object char :
  tidy key char → tidy key (applyPredicate predicate object char).
Proof.
  intros (Hid & Hfilms & Hspecies). split; [|split].
  - by rewrite applyPredicate_id.
  - destruct char. unfold applyPredicate. cbn in Hfilms.
    repeat (destruct (String.eqb predicate _); [done|]).
    destruct (String.eqb predicate _); [|done].
    destruct (existsb _ _) eqn:Hin; [done|]. cbn.
    apply NoDup_app. split; [done|]. split.
    + intros x Hx ->%list_elem_of_singleton.
      by apply existsb_eqb_false in Hin.
    + apply NoDup_singleton.
  - destruct char. unfold applyPredicate. cbn in Hspecies.
    repeat (destruct (String.eqb predicate _); [done|]).
    by destruct (String.eqb predicate _); [destruct (existsb _ _)|].
Qed.

Lemma newCharacter_tidy subject : tidy subject (newCharacter subject).
Proof. repeat split. cbn. constructor. Qed.

(** One step of the extractor either keeps the keys or appends the
    subject, which was not a key. *)
Lemma onCharacterQuad_keys characters quad :
  (onCharacterQuad characters quad).*1
  = if isCharacterType quad && negb (JsMap.has (subject quad) characters)
    then characters.*1 ++ [subject quad]
    else characters.*1.
Proof.
  unfold onCharacterQuad.
  destruct (isCharacterType quad); cbn [andb].
  - destruct (JsMap.has (subject quad) characters) eqn:Hhas; cbn [negb].
    + by rewrite Hhas, JsMap_update_keys.
    + rewrite JsMap_has_set, String.eqb_refl, orb_true_r.
      rewrite JsMap_update_keys, JsMap_set_absent by done.
      by rewrite fmap_app.
  - destruct (JsMap.has (subject quad) characters); [|done].
    apply JsMap_update_keys.
Qed.

Lemma onCharacterQuad_Forall (P : string → Character → Prop) characters quad :
  Forall (λ e, P e.1 e.2) characters →
  P (subject quad) (newCharacter (subject quad)) →
  (∀ char, P (subject quad) char →
           P (subject quad)
             (applyPredicate (predicate quad) (object quad) char)) →
  Forall (λ e, P e.1 e.2) (onCharacterQuad characters quad).
Proof.
  intros Hall Hnew Hstep. unfold onCharacterQuad.
  set (registered :=
         if isCharacterType quad
         then if negb (JsMap.has (subject quad) characters)
              then JsMap.set (subject quad) (newCharacter (subject quad))
                     characters
              else characters
         else characters).
  assert (Forall (λ e, P e.1 e.2) registered) as Hreg.
  { subst registered. destruct (isCharacterType quad); [|done].
    destruct (JsMap.has (subject quad) characters) eqn:Hhas;
      cbn [negb]; [done|].
    rewrite JsMap_set_absent by done.
    apply Forall_app. split; [done|]. by constructor. }
  destruct (JsMap.has (subject quad) registered); [|exact Hreg].
  by apply JsMap_update_Forall.
Qed.

Lemma characterMap_snoc quads quad :
  characterMap (quads ++ [quad])
  = onCharacterQuad (characterMap quads) quad.
Proof. unfold characterMap. by rewrite fold_left_app. Qed.

Lemma characterMap_NoDup quads : NoDup (characterMap quads).*1.
Proof.
  induction quads as [|quad quads IH] using rev_ind; [constructor|].
  rewrite characterMap_snoc, onCharacterQuad_keys.
  destruct (isCharacterType quad); [|done]. cbn [andb].
  destruct (JsMap.has (subject quad) (characterMap quads)) eqn:Hhas; [done|].
  cbn [negb]. apply NoDup_app. split; [done|]. split.
  - intros x Hx ->%list_elem_of_singleton.
    by apply JsMap_has_false in Hhas.
  - apply NoDup_singleton.
Qed.

Lemma characterMap_tidy quads :
  Forall (λ e, tidy e.1 e.2) (characterMap quads).
Proof.
  induction quads as [|quad quads IH] using rev_ind; [constructor|].
  rewrite characterMap_snoc.
  apply (onCharacterQuad_Forall (λ key char, tidy key char)); [done|..].
  - apply newCharacter_tidy.
  - intros char. apply applyPredicate_tidy.
Qed.

Lemma parseCharacters_ids_keys quads :
  id <$> parseCharactersFromTTL quads = (characterMap quads).*1.
Proof.
  unfold parseCharactersFromTTL, JsMap.values.
  pose proof (characterMap_tidy quads) as Htidy.
  induction Htidy as [|[k char] m (Hid & _) _ IH]; [done|].
  cbn in *. by rewrite IH, Hid.
Qed.

Lemma parseCharacters_ids_iff quads s :
  s ∈ id <$> parseCharactersFromTTL quads
  ↔ ∃ quad, quad ∈ quads ∧ isCharacterType quad = true ∧ subject quad = s.
Proof.
  rewrite parseCharacters_ids_keys.
  rewrite <- JsMap_has_elem_of, DataParserFacts.has_characterMap.
  rewrite existsb_exists. split.
  - intros (quad & Hin & [Htype Hs]%andb_true_iff).
    exists quad. split; [by apply list_elem_of_In|].
    split; [done | by apply String.eqb_eq].
  - intros (quad & Hin & Htype & <-). exists quad.
    split; [by apply list_elem_of_In|].
    by rewrite Htype, String.eqb_refl.
Qed.

(** X1: the characters of the result have pairwise distinct ids, and the
    ids are exactly the subjects the stream asserts to be a Character. *)
Theorem parseCharacters_ids (quads : list Quad) :
  NoDup (id <$> parseCharactersFromTTL quads)
  ∧ ∀ s, s ∈ id <$> parseCharactersFromTTL quads
         ↔ ∃ quad, quad ∈ quads ∧ isCharacterType quad = true
                   ∧ subject quad = s.
Proof.
  split.
  - rewrite parseCharacters_ids_keys. apply characterMap_NoDup.
  - apply parseCharacters_ids_iff.
Qed.

(** X2: in every character of the result the films are pairwise distinct
    and the species equals the type. *)
Theorem parseCharacters_films_species (quads : list Quad) (char : Character) :
  char ∈ parseCharactersFromTTL quads →
  NoDup (films char) ∧ species char = type char.
Proof.
  unfold parseCharactersFromTTL, JsMap.values.
  intros ([k c] & -> & Hin)%list_elem_of_fmap.
  pose proof (characterMap_tidy quads) as Htidy.
  rewrite Forall_forall in Htidy.
  by destruct (Htidy _ Hin) as (_ & ? & ?).
Qed.

Lemma parseCharacters_films_species_witness :
  let quads :=
    [mkQuad "luke" rdf_type voc_Character;
     mkQuad "luke" voc_film "film/1"; mkQuad "luke" voc_film "film/2";
     mkQuad "luke" voc_film "film/1"; mkQuad "luke" bo_type "Human"] in
  let char :=
    mkCharacter "luke" "" "Human" "Human" "" "" "" "" "" "" "" ""
      ["film/1"; "film/2"] in
  char ∈ parseCharactersFromTTL quads
  ∧ NoDup (films char) ∧ species char = type char.
Proof.
  intros quads char.
  assert (char ∈ parseCharactersFromTTL quads) as Hin
    by (vm_compute; apply list_elem_of_here).
  split; [exact Hin|].
  exact (parseCharacters_films_species quads char Hin).
Defined.

(** *** Triples that change nothing *)

Lemma parseCharacters_skip pre quad post :
  onCharacterQuad (characterMap pre) quad = characterMap pre →
  parseCharactersFromTTL (pre ++ quad :: post)
  = parseCharactersFromTTL (pre ++ post).
Proof.
  intros Hskip. unfold parseCharactersFromTTL.
  rewrite !DataParserFacts.characterMap_app. cbn [fold_left].
  by rewrite Hskip.
Qed.

(** X3: asserting the type of a subject again is a no-op: it neither
    resets the attributes recorded so far nor moves the character. *)
Theorem parseCharacters_type_again (pre post : list Quad) (earlier quad : Quad) :
  earlier ∈ pre →
  isCharacterType earlier = true →
  isCharacterType quad = true →
  subject quad = subject earlier →
  parseCharactersFromTTL (pre ++ quad :: post)
  = parseCharactersFromTTL (pre ++ post).
Proof.
  intros Hin Hearlier Hquad Hsubject. apply parseCharacters_skip.
  apply DataParserFacts.onCharacterQuad_registered; [done|].
  rewrite DataParserFacts.has_characterMap. apply existsb_exists.
  exists earlier. split; [by apply list_elem_of_In|].
  by rewrite Hearlier, Hsubject, String.eqb_refl.
Qed.

Lemma parseCharacters_type_again_witness :
  let t := mkQuad "luke" rdf_type voc_Character in
  let a := mkQuad "luke" rdfs_label "Luke Skywalker" in
  t ∈ [t; a] ∧ isCharacterType t = true ∧ subject t = subject t
  ∧ parseCharactersFromTTL ([t; a] ++ t :: [])
    = parseCharactersFromTTL ([t; a] ++ []).
Proof.
  intros t a. split; [apply list_elem_of_here|].
  split; [reflexivity|]. split; [reflexivity|].
  apply (parseCharacters_type_again [t; a] [] t t);
    [apply list_elem_of_here | reflexivity | reflexivity | reflexivity].
Defined.

(** The predicates the [switch] has a case for. *)
Local Abbreviation recognised :=
  [rdfs_label; bo_type; voc_gender; voc_homeworld; voc_height; voc_mass;
   voc_hairColor; voc_skinColor; voc_eyeColor; voc_birthYear; voc_film].

Lemma applyPredicate_unrecognised predicate object char :
  predicate ∉ recognised →
  applyPredicate predicate object char = char.
Proof.
  intros Hnot. destruct char. unfold applyPredicate.
  repeat
    match goal with
    | |- context [String.eqb predicate ?p] =>
        destruct (String.eqb_spec predicate p) as [Heq|_];
        [exfalso; apply Hnot; rewrite Heq; set_solver|]
    end.
  done.
Qed.

(** X4: a triple whose predicate is neither [rdf:type] nor one of the
    eleven the [switch] has a case for is ignored, whatever its subject;
    so are the [connectedTo] triples of a shared document. *)
Theorem parseCharacters_ignores_unrecognised (pre post : list Quad)
    (quad : Quad) :
  predicate quad ≠ rdf_type →
  predicate quad ∉ recognised →
  parseCharactersFromTTL (pre ++ quad :: post)
  = parseCharactersFromTTL (pre ++ post).
Proof.
  intros Htype Hnot. apply parseCharacters_skip.
  unfold onCharacterQuad, isCharacterType.
  destruct (String.eqb_spec (predicate quad) rdf_type) as [?|_]; [done|].
  cbn [andb]. destruct (JsMap.has _ _); [|done].
  apply JsMap_update_id. intros char.
  by apply applyPredicate_unrecognised.
Qed.

Lemma parseCharacters_ignores_unrecognised_witness :
  let t := mkQuad "luke" rdf_type voc_Character in
  let c := mkQuad "luke" voc_connectedTo "leia" in
  predicate c ≠ rdf_type ∧ (predicate c ∉ recognised)
  ∧ parseCharactersFromTTL ([t] ++ c :: [])
    = parseCharactersFromTTL ([t] ++ []).
Proof.
  intros t c.
  assert (predicate c ≠ rdf_type) as Htype
    by (apply (bool_decide_unpack _); vm_compute; exact I).
  assert (predicate c ∉ recognised) as Hnot
    by (apply (bool_decide_unpack _); vm_compute; exact I).
  split; [exact Htype|]. split; [exact Hnot|].
  exact (parseCharacters_ignores_unrecognised [t] [] c Htype Hnot).
Defined.

(** *** Overwriting *)

Lemma applyPredicate_overwrite predicate object1 object2 char :
  predicate ≠ voc_film →
  applyPredicate predicate object2 (applyPredicate predicate object1 char)
  = applyPredicate predicate object2 char.
Proof.
  intros Hfilm. destruct char. unfold applyPredicate at 2.
  repeat
    match goal with
    | |- context [if String.eqb predicate ?p then _ else _] =>
        destruct (String.eqb predicate p) eqn:?;
        [ solve
            [ unfold applyPredicate;
              repeat match goal with
                     | H : String.eqb _ _ = _ |- _ => rewrite H; clear H
                     end;
              reflexivity
            | exfalso; apply Hfilm; by apply String.eqb_eq ]
        | ]
    end.
  reflexivity.
Qed.

(** X5: for every predicate but [film] the last write wins: of two
    consecutive triples with the same subject and predicate, the first
    not being a type assertion, only the second counts. *)
Theorem parseCharacters_last_write_wins (pre post : list Quad)
    (first second : Quad) :
  subject first = subject second →
  predicate first = predicate second →
  predicate first ≠ voc_film →
  isCharacterType first = false →
  parseCharactersFromTTL (pre ++ first :: second :: post)
  = parseCharactersFromTTL (pre ++ second :: post).
Proof.
  intros Hsubject Hpredicate Hfilm Hfirst. unfold parseCharactersFromTTL.
  rewrite !DataParserFacts.characterMap_app. cbn [fold_left].
  do 2 f_equal. set (m := characterMap pre).
  destruct (JsMap.has (subject first) m) eqn:Hhas.
  - assert (onCharacterQuad m first
            = JsMap.update (subject first)
                (applyPredicate (predicate first) (object first)) m) as ->.
    { unfold onCharacterQuad. by rewrite Hfirst, Hhas. }
    unfold onCharacterQuad.
    rewrite <- Hsubject, JsMap_has_update, Hhas.
    destruct (isCharacterType second); cbn [negb];
      rewrite ?JsMap_has_update, Hhas, JsMap_update_update;
      apply JsMap_update_ext; intros char; cbn;
      rewrite <- Hpredicate; by apply applyPredicate_overwrite.
  - by rewrite (DataParserFacts.onCharacterQuad_unregistered m first).
Qed.

Lemma parseCharacters_last_write_wins_witness :
  let t := mkQuad "luke" rdf_type voc_Character in
  let a := mkQuad "luke" rdfs_label "Luke" in
  let b := mkQuad "luke" rdfs_label "Luke Skywalker" in
  subject a = subject b ∧ predicate a = predicate b
  ∧ predicate a ≠ voc_film ∧ isCharacterType a = false
  ∧ parseCharactersFromTTL ([t] ++ a :: b :: [])
    = parseCharactersFromTTL ([t] ++ b :: []).
Proof.
  intros t a b.
  assert (predicate a ≠ voc_film) as Hfilm
    by (apply (bool_decide_unpack _); vm_compute; exact I).
  split; [reflexivity|]. split; [reflexivity|]. split; [exact Hfilm|].
  split; [reflexivity|].
  apply (parseCharacters_last_write_wins [t] [] a b);
    [reflexivity | reflexivity | exact Hfilm | reflexivity].
Defined.

(** *** Triples of different subjects *)

Lemma onCharacterQuad_update characters quad :
  onCharacterQuad characters quad
  = JsMap.update (subject quad)
      (applyPredicate (predicate quad) (object quad))
      (if isCharacterType quad
          && negb (JsMap.has (subject quad) characters)
       then characters ++ [(subject quad, newCharacter (subject quad))]
       else characters).
Proof.
  unfold onCharacterQuad.
  destruct (isCharacterType quad); cbn [andb].
  - destruct (JsMap.has (subject quad) characters) eqn:Hhas; cbn [negb].
    + by rewrite Hhas.
    + rewrite JsMap_has_set, String.eqb_refl, orb_true_r.
      by rewrite JsMap_set_absent.
  - destruct (JsMap.has (subject quad) characters) eqn:Hhas; [done|].
    by rewrite JsMap_update_absent.
Qed.

Lemma onCharacterQuad_comm characters first second :
  subject first ≠ subject second →
  isCharacterType second = false →
  onCharacterQuad (onCharacterQuad characters first) second
  = onCharacterQuad (onCharacterQuad characters second) first.
Proof.
  intros Hne Hsecond.
  rewrite (onCharacterQuad_update _ second), Hsecond. cbn [andb].
  rewrite (onCharacterQuad_update characters first).
  rewrite (onCharacterQuad_update _ first).
  rewrite (onCharacterQuad_update characters second), Hsecond. cbn [andb].
  rewrite JsMap_has_update.
  rewrite JsMap_update_comm by done. f_equal.
  destruct (isCharacterType first && negb (JsMap.has (subject first) characters));
    [|done].
  rewrite JsMap_update_app. f_equal. cbn.
  by destruct (String.eqb_spec (subject first) (subject second)).
Qed.

(** X6: two consecutive triples with different subjects, not both type
    assertions, can be swapped without changing the result. *)
Theorem parseCharacters_swap_subjects (pre post : list Quad)
    (first second : Quad) :
  subject first ≠ subject second →
  isCharacterType first = false ∨ isCharacterType second = false →
  parseCharactersFromTTL (pre ++ first :: second :: post)
  = parseCharactersFromTTL (pre ++ second :: first :: post).
Proof.
  intros Hne Hone. unfold parseCharactersFromTTL.
  rewrite !DataParserFacts.characterMap_app. cbn [fold_left].
  do 2 f_equal. destruct Hone as [Hfirst|Hsecond].
  - symmetry. by apply onCharacterQuad_comm.
  - by apply onCharacterQuad_comm.
Qed.

Lemma parseCharacters_swap_subjects_witness :
  let luke := mkQuad "luke" rdf_type voc_Character in
  let leia := mkQuad "leia" rdf_type voc_Character in
  let a := mkQuad "luke" rdfs_label "Luke Skywalker" in
  let b := mkQuad "leia" voc_gender "female" in
  subject a ≠ subject b
  ∧ isCharacterType a = false
  ∧ parseCharactersFromTTL ([luke; leia] ++ a :: b :: [])
    = parseCharactersFromTTL ([luke; leia] ++ b :: a :: []).
Proof.
  intros luke leia a b.
  assert (subject a ≠ subject b) as Hne
    by (apply (bool_decide_unpack _); vm_compute; exact I).
  split; [exact Hne|]. split; [reflexivity|].
  apply (parseCharacters_swap_subjects [luke; leia] [] a b Hne).
  left. reflexivity.
Defined.

(** *** Edge extractor *)

(** X7: the edge extractor distributes over the concatenation of two
    streams, and a stream without [connectedTo] triples yields no edge. *)
Theorem parseConnections_app (quads1 quads2 : list Quad) :
  parseConnectionsFromTTL (quads1 ++ quads2)
  = parseConnectionsFromTTL quads1 ++ parseConnectionsFromTTL quads2
  ∧ (parseConnectionsFromTTL quads1 = []
     ↔ ∀ quad, quad ∈ quads1 → predicate quad ≠ voc_connectedTo).
Proof.
  unfold parseConnectionsFromTTL.
  rewrite !DataParserFacts.fold_onConnectionQuad. cbn [app]. split.
  - by rewrite List.filter_app, map_app.
  - induction quads1 as [|quad quads IH]; cbn.
    + split; [|done]. by intros _ quad ?%elem_of_nil.
    + destruct (String.eqb_spec (predicate quad) voc_connectedTo) as [Heq|Hne].
      * split; [done|]. intros Hall. exfalso.
        by apply (Hall quad); [left|].
      * rewrite IH. split.
        -- intros Hall quad' [->|Hin]%elem_of_cons; [done|]. by apply Hall.
        -- intros Hall quad' Hin. apply Hall. by right.
Qed.

End ParserExtras.


(** ** Colours *)

Module ColourExtras.
Import Dashboard.

(** X8: for every species that is not a property name inherited from
    [Object.prototype], [getColorForSpecies] answers with one of the six
    palette colours, and with the blue when the species is not in the
    table. *)
Theorem getColorForSpecies_palette (species : string) :
  species ∉ Js.Object_prototype_names →
  Palette.getColorForSpecies species
  ∈ ["#4A9EFF"; "#B270FF"; "#FFE66D"; "#7FFF00"; "#FF8C42"; "#FF3B3B"]
  ∧ (Palette.colors !! species = None →
     Palette.getColorForSpecies species = "#4A9EFF").
Proof.
  intros _. split.
  - unfold Palette.getColorForSpecies.
    destruct (Palette.colors !! species) as [colour|] eqn:Hlookup; cbn.
    + assert (map_Forall
                (λ _ colour,
                   colour ∈ ["#4A9EFF"; "#B270FF"; "#FFE66D"; "#7FFF00";
                             "#FF8C42"; "#FF3B3B"])
                Palette.colors) as Hall.
      { apply (bool_decide_unpack _). vm_compute. exact I. }
      exact (Hall _ _ Hlookup).
    + apply list_elem_of_here.
  - intros Hnone. unfold Palette.getColorForSpecies. by rewrite Hnone.
Qed.

Lemma getColorForSpecies_palette_witness :
  ("Jawa" ∉ Js.Object_prototype_names)
  ∧ Palette.getColorForSpecies "Jawa" = "#4A9EFF".
Proof.
  assert ("Jawa" ∉ Js.Object_prototype_names) as Hplain.
  { apply (bool_decide_unpack _). vm_compute. exact I. }
  split; [exact Hplain|].
  apply (proj2 (getColorForSpecies_palette "Jawa" Hplain)).
  by vm_compute.
Defined.

Lemma groupColors_lookup (groupIndex : nat) :
  ∃ colour,
    groupColors !! (groupIndex `mod` length groupColors) = Some colour.
Proof.
  apply lookup_lt_is_Some_2. apply Nat.mod_upper_bound. done.
Qed.

(** X9: [getColorForGroup] always answers with one of the ten group
    colours, looks at the index only, repeats with period ten, and gives
    the first ten groups pairwise different colours. *)
Theorem getColorForGroup_cycle (groupKey groupKey' : string)
    (groupIndex groupIndex' totalGroups totalGroups' : nat) :
  getColorForGroup groupKey groupIndex totalGroups ∈ groupColors
  ∧ getColorForGroup groupKey groupIndex totalGroups
    = getColorForGroup groupKey' groupIndex totalGroups'
  ∧ getColorForGroup groupKey (groupIndex + 10) totalGroups
    = getColorForGroup groupKey groupIndex totalGroups
  ∧ (groupIndex < 10 → groupIndex' < 10 →
     getColorForGroup groupKey groupIndex totalGroups
     = getColorForGroup groupKey groupIndex' totalGroups →
     groupIndex = groupIndex').
Proof.
  unfold getColorForGroup. split; [|split; [|split]].
  - destruct (groupColors_lookup groupIndex) as [colour Hcolour].
    rewrite Hcolour. cbn. by eapply list_elem_of_lookup_2.
  - done.
  - change (length groupColors) with 10.
    replace (groupIndex + 10) with (groupIndex + 1 * 10) by lia.
    by rewrite Nat.Div0.mod_add.
  - intros Hlt Hlt' Heq. change (length groupColors) with 10 in Heq.
    rewrite !Nat.mod_small in Heq by done.
    destruct (lookup_lt_is_Some_2 groupColors groupIndex) as [c Hc]; [done|].
    destruct (lookup_lt_is_Some_2 groupColors groupIndex') as [c' Hc']; [done|].
    rewrite Hc, Hc' in Heq. cbn in Heq. subst c'.
    assert (NoDup groupColors) as Hnodup
      by (apply (bool_decide_unpack _); vm_compute; exact I).
    by eapply NoDup_lookup.
Qed.

Lemma getColorForGroup_cycle_witness :
  (3 < 10)%nat ∧ (7 < 10)%nat
  ∧ getColorForGroup "Droid" 3 12 ∈ groupColors
  ∧ getColorForGroup "Droid" 13 12 = getColorForGroup "Droid" 3 12.
Proof.
  split; [lia|]. split; [lia|].
  destruct (getColorForGroup_cycle "Droid" "Droid" 3 7 12 12)
    as (Hin & _ & Hperiod & _).
  split; [exact Hin | exact Hperiod].
Defined.

End ColourExtras.

(** ** Hovering *)

Module HoverExtras.
Import Dashboard.

(** X10: the neighbours of the hovered node are the other ends of the
    edges that touch it; nothing is a neighbour while no node is hovered,
    nor while the hovered id is the empty string. *)
Theorem connectedCharacters_neighbours
    (hovered : option string) (connections : list DataParser.Edge) :
  (hovered = None ∨ hovered = Some "" →
   connectedCharacters hovered connections = ∅)
  ∧ (∀ h id,
       hovered = Some h → h ≠ "" →
       id ∈ connectedCharacters hovered connections
       ↔ ∃ conn, conn ∈ connections
           ∧ ((DataParser.source conn = h ∧ DataParser.target conn = id)
              ∨ (DataParser.target conn = h
                 ∧ DataParser.source conn = id))).
Proof.
  split.
  - by intros [-> | ->].
  - intros h id -> Hne. rewrite RenderFacts.elem_of_connectedCharacters.
    split.
    + intros (h' & conn & [= <-] & _ & Hin & Hends).
      exists conn. split; [by apply list_elem_of_In | done].
    + intros (conn & Hin & Hends). exists h, conn.
      repeat split; [done | by apply list_elem_of_In | done].
Qed.

(** X11: being a neighbour is symmetric: [b] is flagged while [a] is
    hovered iff [a] is flagged while [b] is hovered. *)
Theorem connectedCharacters_symmetric
    (connections : list DataParser.Edge) (a b : string) :
  a ≠ "" → b ≠ "" →
  b ∈ connectedCharacters (Some a) connections
  ↔ a ∈ connectedCharacters (Some b) connections.
Proof.
  intros Ha Hb. rewrite !RenderFacts.elem_of_connectedCharacters.
  split; intros (h & conn & [= <-] & _ & Hin & Hends).
  - exists b, conn. repeat split; [done|done|]. tauto.
  - exists a, conn. repeat split; [done|done|]. tauto.
Qed.

Lemma connectedCharacters_symmetric_witness :
  "A" ≠ "" ∧ "D" ≠ ""
  ∧ ("D" ∈ connectedCharacters (Some "A") Sample.connections
     ↔ "A" ∈ connectedCharacters (Some "D") Sample.connections).
Proof.
  assert ("A" ≠ "") as Ha by done.
  assert ("D" ≠ "") as Hd by done.
  split; [exact Ha|]. split; [exact Hd|].
  exact (connectedCharacters_symmetric Sample.connections "A" "D" Ha Hd).
Defined.

End HoverExtras.


(** ** Sequences of user actions *)

Module InteractionExtras.
Import Dashboard Interaction.

(** The character of the last click of a sequence, if any. *)
Local Abbreviation lastClick events :=
  (last (omap (λ event, match event with
                        | NodeClick character => Some character
                        | _ => None
                        end) events)).

Lemma run_snoc events event st :
  run (events ++ [event]) st = handle (run events st) event.
Proof. unfold run. by rewrite fold_left_app. Qed.

(** X12: whatever the user does, the selection is the character of the
    most recent click: closing the sidebar or the settings panel, hovering,
    regrouping and resizing never change or clear it. So the sidebar is
    mounted as soon as a node has been clicked and shows the last clicked
    character from then on, slid in or out. *)
Theorem selection_is_last_click (events : list Event) (st : State) :
  selectedCharacter (run events st)
  = match lastClick events with
    | Some character => Some character
    | None => selectedCharacter st
    end
  ∧ Sidebar.mounted (run events st)
    = match lastClick events with
      | Some character =>
          Sidebar.Sidebar (Some character) (isSidebarOpen (run events st))
      | None =>
          Sidebar.Sidebar (selectedCharacter st)
            (isSidebarOpen (run events st))
      end.
Proof.
  assert (selectedCharacter (run events st)
          = match lastClick events with
            | Some character => Some character
            | None => selectedCharacter st
            end) as Hselected.
  { induction events as [|event events IH] using rev_ind; [done|].
    rewrite run_snoc, omap_app.
    destruct event; simpl omap; rewrite ?app_nil_r;
      try (cbn; exact IH).
    by rewrite last_snoc. }
  split; [exact Hselected|].
  unfold Sidebar.mounted. rewrite Hselected.
  by destruct (lastClick events).
Qed.

(** X13: node positions, group brackets and group records depend on the
    character list, the window and the grouping only: clicking, closing,
    toggling the settings and hovering leave the layout as it is. *)
Theorem layout_unmoved_by_interaction
    (characters : list DataParser.Character) (events : list Event)
    (st : State) :
  Forall (λ event, match event with
                   | GroupByChange _ | Resize _ => False
                   | _ => True
                   end) events →
  layout characters (dimensions (run events st)) (groupBy (run events st))
  = layout characters (dimensions st) (groupBy st).
Proof.
  induction events as [|event events IH] using rev_ind; [reflexivity|].
  intros [Hevents Hevent]%Forall_app. apply Forall_inv in Hevent.
  specialize (IH Hevents). rewrite run_snoc, <- IH.
  destruct event; try reflexivity; exfalso; exact Hevent.
Qed.

Lemma layout_unmoved_by_interaction_witness :
  let events :=
    [MouseEnter "A"; NodeClick (Sample.character "A" "Droid");
     SettingsToggle; MouseLeave; SidebarClose] in
  layout Sample.characters
    (dimensions (run events (initialState Sample.window)))
    (groupBy (run events (initialState Sample.window)))
  = layout Sample.characters Sample.window "none".
Proof.
  intros events.
  apply (layout_unmoved_by_interaction Sample.characters events
           (initialState Sample.window)).
  repeat constructor.
Defined.

(** X14: the two panels are independent: whether the sidebar is open
    depends on the clicks and sidebar closings only, whether the settings
    panel is open on its toggles and closings only; all other events can be
    dropped from the history without changing either flag. *)
Theorem panels_independent (events : list Event) (st : State) :
  isSidebarOpen (run events st)
  = isSidebarOpen
      (run (List.filter (λ event, match event with
                                  | NodeClick _ | SidebarClose => true
                                  | _ => false
                                  end) events) st)
  ∧ isSettingsOpen (run events st)
    = isSettingsOpen
        (run (List.filter (λ event, match event with
                                    | SettingsToggle | SettingsClose => true
                                    | _ => false
                                    end) events) st).
Proof.
  induction events as [|event events [IHsidebar IHsettings]] using rev_ind;
    [done|].
  rewrite !List.filter_app, run_snoc. cbn [List.filter].
  destruct event; rewrite ?app_nil_r, ?run_snoc; cbn;
    rewrite <- ?IHsidebar, <- ?IHsettings; done.
Qed.

End InteractionExtras.

(** ** The sidebar *)

Module SidebarExtras.
Import Dashboard Interaction.

Lemma card_cases field heading text :
  (field = "" ∧ Sidebar.card field heading text = [])
  ∨ (field ≠ "" ∧ Sidebar.card field heading text = [(heading, text)]).
Proof.
  unfold Sidebar.card, Js.truthy.
  destruct (String.eqb_spec field ""); [by left | by right].
Qed.

Lemma card_sublist field heading text :
  (Sidebar.card field heading text).*1 `sublist_of` [heading].
Proof.
  destruct (card_cases field heading text) as [[_ ->]|[_ ->]];
    [apply sublist_nil_l | done].
Qed.

Lemma card_nil field heading text :
  Sidebar.card field heading text = [] ↔ field = "".
Proof. by destruct (card_cases field heading text) as [[? ->]|[? ->]]. Qed.

(** X15: the cards of the sidebar come in a fixed order, one for each
    non-empty attribute among species, gender, height, mass, hair, skin and
    eye colour, birth year and films; there is none when all nine are
    empty, and the id, the type and the homeworld are never shown. *)
Theorem sidebar_cards (character : DataParser.Character) (isOpen : bool) :
  ∃ view,
    Sidebar.Sidebar (Some character) isOpen = Some view
    ∧ (Sidebar.cards view).*1
      `sublist_of` ["Species"; "Gender"; "Height"; "Mass"; "Hair Color";
                    "Skin Color"; "Eye Color"; "Birth Year"; "Films"]
    ∧ (Sidebar.cards view = []
       ↔ DataParser.species character = ""
         ∧ DataParser.gender character = ""
         ∧ DataParser.height character = ""
         ∧ DataParser.mass character = ""
         ∧ DataParser.hairColor character = ""
         ∧ DataParser.skinColor character = ""
         ∧ DataParser.eyeColor character = ""
         ∧ DataParser.birthYear character = ""
         ∧ DataParser.films character = [])
    ∧ (∀ id type homeworld,
         Sidebar.Sidebar
           (Some (DataParser.mkCharacter id (DataParser.name character) type
                    (DataParser.species character)
                    (DataParser.gender character) homeworld
                    (DataParser.height character)
                    (DataParser.mass character)
                    (DataParser.hairColor character)
                    (DataParser.skinColor character)
                    (DataParser.eyeColor character)
                    (DataParser.birthYear character)
                    (DataParser.films character))) isOpen
         = Some view).
Proof.
  eexists. split; [reflexivity|]. cbn [Sidebar.cards].
  destruct character as [i n t s g hw h m hc sc ec b f].
  cbn [DataParser.species DataParser.gender DataParser.height DataParser.mass
       DataParser.hairColor DataParser.skinColor DataParser.eyeColor
       DataParser.birthYear DataParser.films DataParser.name].
  split; [|split; [|done]].
  - rewrite !fmap_app.
    change ["Species"; "Gender"; "Height"; "Mass"; "Hair Color";
            "Skin Color"; "Eye Color"; "Birth Year"; "Films"]
      with (["Species"] ++ ["Gender"] ++ ["Height"] ++ ["Mass"]
            ++ ["Hair Color"] ++ ["Skin Color"] ++ ["Eye Color"]
            ++ ["Birth Year"] ++ ["Films"]).
    repeat (apply sublist_app; [apply card_sublist|]).
    destruct f; cbn; [apply sublist_nil_l | done].
  - rewrite !app_nil, !card_nil.
    assert ((if (0 <? length f)%nat
             then [("Films", pretty (length f) +:+ " film(s)")]
             else []) = [] ↔ f = []) as ->; [by destruct f | done].
Qed.

End SidebarExtras.


(** ** The settings panel *)

Module SettingsExtras.
Import Dashboard.

(** X16: choosing a radio of the settings panel checks that radio and no
    other, and every grouping the panel offers besides [none] is one the
    layout implements: some character gets a bucket other than
    ["Unknown"] under it. *)
Theorem radios_checked (groupBy : string) (radio : SettingsPanel.Radio)
    (st : State) :
  radio ∈ SettingsPanel.radios groupBy →
  (∀ radio',
     radio' ∈ SettingsPanel.radios
                (Dashboard.groupBy (SettingsPanel.onChange radio st)) →
     SettingsPanel.checked radio' = true
     ↔ SettingsPanel.value radio' = SettingsPanel.value radio)
  ∧ (SettingsPanel.value radio ≠ "none" →
     ∃ char, groupKeyOf (SettingsPanel.value radio) char ≠ "Unknown").
Proof.
  unfold SettingsPanel.radios. rewrite !elem_of_cons, elem_of_nil.
  intros [->|[->|[->|[->|[]]]]]; cbn; (split; [|intros Hnone]).
  all: try (intros radio'; rewrite !elem_of_cons, elem_of_nil;
            by intros [->|[->|[->|[->|[]]]]]).
  - done.
  - by exists (Sample.character "A" "Droid").
  - by exists (DataParser.mkCharacter "A" "" "" "" "male" "" "" "" "" "" ""
                 "" []).
  - by exists (DataParser.mkCharacter "A" "" "" "" "" "" "" "" "" "" "" ""
                 ["film/1"]).
Qed.

Lemma radios_checked_witness :
  let radio := SettingsPanel.mkRadio "gender" "Gender" false in
  let st := initialState Sample.window in
  radio ∈ SettingsPanel.radios "none"
  ∧ (SettingsPanel.value radio ≠ "none" →
     ∃ char, groupKeyOf (SettingsPanel.value radio) char ≠ "Unknown").
Proof.
  intros radio st.
  assert (radio ∈ SettingsPanel.radios "none") as Hin.
  { unfold SettingsPanel.radios. cbn. set_solver. }
  split; [exact Hin|].
  exact (proj2 (radios_checked "none" radio st Hin)).
Defined.

End SettingsExtras.

(** ** Loading *)

Module AppExtras.
Import DataParser.

Lemma parseCharacters_nil quads :
  parseCharactersFromTTL quads = []
  ↔ ∀ quad, quad ∈ quads → isCharacterType quad = false.
Proof.
  pose proof (ParserExtras.parseCharacters_ids_iff quads) as Hids.
  split.
  - intros Hnil quad Hin.
    destruct (isCharacterType quad) eqn:Htype; [|done].
    assert (subject quad ∈ id <$> parseCharactersFromTTL quads) as Hs
      by (apply Hids; eauto).
    rewrite Hnil in Hs. by apply elem_of_nil in Hs.
  - intros Hall.
    destruct (parseCharactersFromTTL quads) as [|char chars] eqn:Hparse;
      [done|].
    destruct (proj1 (Hids (id char))) as (quad & Hin & Htype & _).
    { cbn. left. }
    by rewrite Hall in Htype.
Qed.

(** X17: after the two documents have been fetched and parsed the app
    mounts the dashboard, with the extracted characters and edges, exactly
    when the data asserts at least one Character; otherwise it shows the
    no-characters screen. *)
Theorem App_after_load (dataQuads connectionsQuads : list Quad) :
  let st := App.loadData (App.Fetched dataQuads connectionsQuads)
              App.initialState in
  ((∃ quad, quad ∈ dataQuads ∧ isCharacterType quad = true) →
   App.App st
   = App.DashboardScreen (parseCharactersFromTTL dataQuads)
       (parseConnectionsFromTTL connectionsQuads))
  ∧ ((∀ quad, quad ∈ dataQuads → isCharacterType quad = false) →
     App.App st = App.NoCharactersScreen).
Proof.
  cbn. split.
  - intros (quad & Hin & Htype).
    destruct (parseCharactersFromTTL dataQuads) eqn:Hparse; [|done].
    pose proof (proj1 (parseCharacters_nil _) Hparse) as Hall.
    by rewrite Hall in Htype.
  - intros Hall. by rewrite (proj2 (parseCharacters_nil _) Hall).
Qed.

(** X18: in no state does the app mount the dashboard with an empty
    character list, so the angular step of the ungrouped layout never
    divides by zero; and a failed load shows the error screen with the
    message of the exception, unless the message is empty, in which case
    the no-characters screen is shown. *)
Theorem App_screens (st : App.State) (message : string) :
  (∀ characters connections,
     App.App st = App.DashboardScreen characters connections →
     characters ≠ [] ∧ App.loading st = false)
  ∧ App.App (App.loadData (App.Threw message) App.initialState)
    = (if String.eqb message "" then App.NoCharactersScreen
       else App.ErrorScreen message)
  ∧ App.App App.initialState = App.LoadingScreen.
Proof.
  split; [|split].
  - intros characters connections. unfold App.App.
    destruct (App.loading st); [done|].
    destruct (App.error st) as [m|]; [destruct (Js.truthy m); [done|]|];
      destruct (App.characters st) eqn:Hchars; cbn; try done;
      by intros [= <- <-].
  - cbn. unfold Js.truthy. by destruct (String.eqb message "").
  - done.
Qed.

End AppExtras.


(** ** More on the layout *)

Module LayoutExtras.
Import Dashboard.
Local Open Scope R_scope.

Local Abbreviation ids characters := (DataParser.id <$> characters).

(** *** Lookups after a traversal that inserts *)

Lemma reduce_insert_frame {A V} (g : A → string) (h : A → nat → V) l k :
  k ∉ g <$> l →
  ∀ index (acc : gmap string V),
    Js.reduce_from (λ acc a index, <[g a := h a index]> acc) index l acc !! k
    = acc !! k.
Proof.
  induction l as [|a l IH]; intros Hk index acc; [done|].
  rewrite fmap_cons in Hk. apply not_elem_of_cons in Hk as [Hne Hk].
  cbn [Js.reduce_from]. rewrite IH by done. by rewrite lookup_insert_ne.
Qed.

Lemma reduce_insert_lookup {A V} (g : A → string) (h : A → nat → V) l :
  NoDup (g <$> l) →
  ∀ index (acc : gmap string V) j a,
    l !! j = Some a →
    Js.reduce_from (λ acc a index, <[g a := h a index]> acc) index l acc
      !! g a
    = Some (h a (index + j)%nat).
Proof.
  induction l as [|a0 l IH]; intros Hnodup index acc j a Hj; [done|].
  rewrite fmap_cons in Hnodup. apply NoDup_cons in Hnodup as [Hnotin Hnodup].
  cbn [Js.reduce_from]. destruct j as [|j]; cbn in Hj.
  - injection Hj as ->. rewrite reduce_insert_frame by done.
    rewrite lookup_insert_eq. by rewrite Nat.add_0_r.
  - rewrite (IH Hnodup (S index) _ j a Hj). do 2 f_equal. lia.
Qed.

(** *** The ungrouped circle *)

(** X19: without grouping and with pairwise distinct ids, the [i]-th
    character sits on the circle at the angle [i * (2 * PI / N) - PI / 2]:
    equal steps, the first character at twelve o'clock; no group record is
    produced and every character is in the group [default]. *)
Theorem ungrouped_positions (characters : list DataParser.Character)
    (dimensions : Dimensions) :
  NoDup (ids characters) →
  let l := layout characters dimensions "none" in
  let cX := width dimensions / 2 in
  let cY := height dimensions / 2 in
  let r := Rmin (width dimensions) (height dimensions) * 0.35 in
  groupInfo l = None
  ∧ (∀ i char,
       characters !! i = Some char →
       positions l !! DataParser.id char
       = Some (Geometry.onCircle cX cY r
                 (INR i * (2 * PI / INR (length characters)) - PI / 2))
       ∧ characterGroups l !! DataParser.id char
         = Some (mkCharacterGroup "default" 0))
  ∧ (∀ char,
       characters !! 0%nat = Some char →
       positions l !! DataParser.id char
       = Some (Connection.mkPosition cX (cY - r))).
Proof.
  intros Hnodup l cX cY r.
  assert (∀ i char,
            characters !! i = Some char →
            positions l !! DataParser.id char
            = Some (Geometry.onCircle cX cY r
                      (INR i * (2 * PI / INR (length characters)) - PI / 2)))
    as Hpos.
  { intros i char Hi. subst l. unfold layout.
    cbn [String.eqb Ascii.eqb Bool.eqb positions]. unfold Js.reduce.
    by rewrite (reduce_insert_lookup DataParser.id
                  (λ char index,
                     Geometry.onCircle cX cY r
                       (INR index * (2 * PI / INR (length characters))
                        - PI / 2)) characters Hnodup 0 ∅ i char Hi). }
  split; [done|]. split.
  - intros i char Hi. split; [by apply Hpos|].
    subst l. unfold layout.
    cbn [String.eqb Ascii.eqb Bool.eqb characterGroups]. unfold Js.reduce.
    by rewrite (reduce_insert_lookup DataParser.id
                  (λ _ _, mkCharacterGroup "default" 0)
                  characters Hnodup 0 ∅ i char Hi).
  - intros char H0. rewrite (Hpos 0%nat char H0).
    unfold Geometry.onCircle. cbn [INR]. do 2 f_equal.
    + replace (0 * (2 * PI / INR (length characters)) - PI / 2)
        with (- (PI / 2)) by lra.
      rewrite cos_neg, cos_PI2. lra.
    + replace (0 * (2 * PI / INR (length characters)) - PI / 2)
        with (- (PI / 2)) by lra.
      rewrite sin_neg, sin_PI2. lra.
Qed.

Lemma ungrouped_positions_witness :
  NoDup (ids Sample.characters)
  ∧ positions (layout Sample.characters Sample.window "none") !! "A"
    = Some (Connection.mkPosition (800 / 2) (600 / 2 - Rmin 800 600 * 0.35)).
Proof.
  assert (NoDup (ids Sample.characters)) as Hnodup
    by (apply (bool_decide_unpack _); vm_compute; exact I).
  split; [exact Hnodup|].
  destruct (ungrouped_positions Sample.characters Sample.window Hnodup)
    as (_ & _ & Hfirst).
  exact (Hfirst (Sample.character "A" "Droid") eq_refl).
Defined.

(** *** The group records in closed form *)

Section Brackets.
Context (groups : gmap string (list DataParser.Character)).
Context (totalCharacters : nat) (usableAngle centerX centerY radius : R).

Local Abbreviation place :=
  (placeGroup groups totalCharacters usableAngle centerX centerY radius).
Local Abbreviation infosFrom :=
  (groupInfoFrom groups totalCharacters usableAngle centerX centerY radius).
Local Abbreviation members k := (default [] (groups !! k)).
Local Abbreviation span k :=
  (groupAngleSpan (length (members k)) totalCharacters usableAngle).

Lemma placeGroups_groupInfoFrom keys :
  ∀ index acc,
    groupInfoArray (Js.reduce_from place index keys acc)
    = groupInfoArray acc ++ infosFrom (currentAngle acc) keys.
Proof.
  induction keys as [|k keys IH]; intros index acc; cbn [Js.reduce_from].
  - cbn. by rewrite app_nil_r.
  - rewrite IH. cbn [placeGroup groupInfoArray currentAngle groupInfoFrom].
    by rewrite <- app_assoc.
Qed.

Lemma groupInfoFrom_length angle keys :
  length (infosFrom angle keys) = length keys.
Proof.
  revert angle. induction keys as [|k keys IH]; intros angle; [done|].
  cbn. by rewrite IH.
Qed.

Lemma groupInfoFrom_lookup keys :
  ∀ angle i g,
    infosFrom angle keys !! i = Some g →
    ∃ k, keys !! i = Some k ∧ name g = k
         ∧ endAngle g = startAngle g + span k
         ∧ Dashboard.centerX g = centerX ∧ Dashboard.centerY g = centerY
         ∧ Dashboard.radius g = radius.
Proof.
  induction keys as [|k keys IH]; intros angle i g Hi; [done|].
  destruct i as [|i]; cbn in Hi.
  - injection Hi as <-. exists k. by repeat split.
  - apply (IH _ _ _ Hi).
Qed.

Lemma groupInfoFrom_head angle keys g :
  infosFrom angle keys !! 0%nat = Some g → startAngle g = angle.
Proof. destruct keys; [done|]. cbn. by intros [= <-]. Qed.

Lemma groupInfoFrom_next keys :
  ∀ angle i g g',
    infosFrom angle keys !! i = Some g →
    infosFrom angle keys !! S i = Some g' →
    startAngle g' = endAngle g + gapAngle.
Proof.
  induction keys as [|k keys IH]; intros angle i g g' Hi Hnext; [done|].
  destruct i as [|i]; cbn in Hi, Hnext.
  - injection Hi as <-. apply groupInfoFrom_head in Hnext.
    rewrite Hnext. cbn. ring.
  - by apply (IH _ _ _ _ Hi Hnext).
Qed.

Lemma groupInfoFrom_last keys :
  ∀ angle g,
    last (infosFrom angle keys) = Some g →
    endAngle g + gapAngle
    = angle + (Geometry.sum ((λ k, span k) <$> keys)
               + INR (length keys) * gapAngle).
Proof.
  induction keys as [|k keys IH]; intros angle g Hlast; [done|].
  cbn [groupInfoFrom] in Hlast. rewrite last_cons in Hlast.
  cbn [fmap list_fmap length]. rewrite S_INR.
  unfold Geometry.sum. cbn [foldr]. fold (Geometry.sum ((λ k, span k) <$> keys)).
  destruct (last (infosFrom (angle + (span k + gapAngle)) keys))
    as [g'|] eqn:Hrest.
  - injection Hlast as ->. rewrite (IH _ _ Hrest). ring.
  - injection Hlast as <-. apply last_None in Hrest.
    assert (keys = []) as ->.
    { destruct keys; [done|]. cbn in Hrest. discriminate Hrest. }
    cbn. unfold Geometry.sum. cbn. ring.
Qed.
End Brackets.

Section GroupedLayout.
Context (characters : list DataParser.Character).
Context (dimensions : Dimensions) (groupBy : string).
Context (Hgrouped : groupBy ≠ "none").

Local Abbreviation cX := (width dimensions / 2).
Local Abbreviation cY := (height dimensions / 2).
Local Abbreviation rad :=
  (Rmin (width dimensions) (height dimensions) * 0.35).
Local Abbreviation keys := (groupKeys groupBy characters).
Local Abbreviation usable := (usableAngle (length keys)).
Local Abbreviation infos :=
  (groupInfoFrom (groups groupBy characters) (length characters) usable
     cX cY rad (- PI / 2) keys).

Lemma layout_groupInfo :
  groupInfo (layout characters dimensions groupBy) = Some infos.
Proof.
  rewrite LayoutFacts.layout_grouped by done. cbn [groupInfo].
  unfold Js.reduce. by rewrite placeGroups_groupInfoFrom.
Qed.

Lemma total_span :
  characters ≠ [] →
  Geometry.sum
    ((λ k, groupAngleSpan
             (length (default [] (groups groupBy characters !! k)))
             (length characters) usable) <$> keys)
  + INR (length keys) * gapAngle
  = 2 * PI.
Proof.
  intros Hne. rewrite LayoutFacts.sum_spans, LayoutFacts.groupKeys_sizes.
  unfold Dashboard.usableAngle.
  assert (INR (length characters) ≠ 0) as Hlen.
  { apply not_0_INR. by destruct characters. }
  field. exact Hlen.
Qed.
End GroupedLayout.

(** X20: in a grouped layout the group records tile the circle: the first
    starts at [- PI / 2], each one starts 0.05 after the end of the one
    before, the last ends 0.05 before [3 * PI / 2], and all carry the
    centre and the radius of the layout. *)
Theorem brackets_chain (characters : list DataParser.Character)
    (dimensions : Dimensions) (groupBy : string) :
  groupBy ≠ "none" →
  ∃ infos,
    groupInfo (layout characters dimensions groupBy) = Some infos
    ∧ length infos = length (groupKeys groupBy characters)
    ∧ (∀ g, infos !! 0%nat = Some g → startAngle g = - PI / 2)
    ∧ (∀ i g g',
         infos !! i = Some g → infos !! S i = Some g' →
         startAngle g' = endAngle g + 0.05)
    ∧ (∀ g, last infos = Some g → endAngle g + 0.05 = 3 * PI / 2)
    ∧ (∀ g, g ∈ infos →
            centerX g = width dimensions / 2
            ∧ centerY g = height dimensions / 2
            ∧ radius g
              = Rmin (width dimensions) (height dimensions) * 0.35).
Proof.
  intros Hgrouped. eexists. split; [by apply layout_groupInfo|].
  split; [apply groupInfoFrom_length|].
  split; [intros g; apply groupInfoFrom_head|].
  split; [apply groupInfoFrom_next|]. split.
  - intros g Hlast.
    assert (characters ≠ []) as Hne.
    { intros ->. by vm_compute in Hlast. }
    apply groupInfoFrom_last in Hlast. unfold gapAngle in Hlast.
    pose proof (total_span characters groupBy Hne) as Htotal.
    unfold gapAngle in Htotal. lra.
  - intros g (i & Hi)%list_elem_of_lookup_1.
    by destruct (groupInfoFrom_lookup _ _ _ _ _ _ _ _ _ _ Hi)
      as (k & _ & _ & _ & ? & ? & ?).
Qed.

Lemma brackets_chain_witness :
  "species" ≠ "none"
  ∧ ∃ infos,
      groupInfo (layout Sample.characters Sample.window "species")
      = Some infos
      ∧ length infos = 2%nat.
Proof.
  split; [done|].
  destruct (brackets_chain Sample.characters Sample.window "species")
    as (infos & Hinfos & Hlen & _); [done|].
  exists infos. split; [exact Hinfos|].
  rewrite Hlen. by vm_compute.
Defined.

(** *** Members of a group *)

Section PlaceMembersLookup.
Context (centerX centerY radius currentAngle angleStep : R).
Context (groupKey : string) (groupIndex : nat).

Local Abbreviation place :=
  (placeMember centerX centerY radius currentAngle angleStep
     groupKey groupIndex).

Lemma placeMembers_frame members id :
  id ∉ ids members →
  ∀ index acc,
    (Js.reduce_from place index members acc).1 !! id = acc.1 !! id
    ∧ (Js.reduce_from place index members acc).2 !! id = acc.2 !! id.
Proof.
  induction members as [|char members IH]; intros Hid index acc; [done|].
  rewrite fmap_cons in Hid. apply not_elem_of_cons in Hid as [Hne Hid].
  cbn [Js.reduce_from].
  destruct (IH Hid (S index) (place acc char index)) as [-> ->].
  cbn [placeMember fst snd]. by rewrite !lookup_insert_ne.
Qed.

Lemma placeMembers_lookup members :
  NoDup (ids members) →
  ∀ index acc j char,
    members !! j = Some char →
    (Js.reduce_from place index members acc).1 !! DataParser.id char
    = Some (Geometry.onCircle centerX centerY radius
              (currentAngle + (INR (index + j) + 0.5) * angleStep))
    ∧ (Js.reduce_from place index members acc).2 !! DataParser.id char
      = Some (mkCharacterGroup groupKey groupIndex).
Proof.
  induction members as [|char0 members IH];
    intros Hnodup index acc j char Hj; [done|].
  rewrite fmap_cons in Hnodup. apply NoDup_cons in Hnodup as [Hnotin Hnodup].
  cbn [Js.reduce_from]. destruct j as [|j]; cbn in Hj.
  - injection Hj as ->.
    destruct (placeMembers_frame members _ Hnotin (S index)
                (place acc char index)) as [-> ->].
    cbn [placeMember fst snd]. rewrite !lookup_insert_eq.
    by rewrite Nat.add_0_r.
  - destruct (IH Hnodup (S index) (place acc char0 index) j char Hj)
      as [-> ->].
    by replace (S index + j)%nat with (index + S j)%nat by lia.
Qed.
End PlaceMembersLookup.

Section PlaceGroupsLookup.
Context (groups : gmap string (list DataParser.Character)).
Context (totalCharacters : nat) (usableAngle centerX centerY radius : R).

Local Abbreviation place :=
  (placeGroup groups totalCharacters usableAngle centerX centerY radius).
Local Abbreviation infosFrom :=
  (groupInfoFrom groups totalCharacters usableAngle centerX centerY radius).
Local Abbreviation members k := (default [] (groups !! k)).
Local Abbreviation span k :=
  (groupAngleSpan (length (members k)) totalCharacters usableAngle).

Lemma placeGroups_frame keys id :
  id ∉ ids (keys ≫= λ k, members k) →
  ∀ index acc,
    placedPositions (Js.reduce_from place index keys acc) !! id
    = placedPositions acc !! id
    ∧ placedGroups (Js.reduce_from place index keys acc) !! id
      = placedGroups acc !! id.
Proof.
  induction keys as [|k keys IH]; intros Hid index acc; [done|].
  rewrite bind_cons, fmap_app in Hid.
  apply not_elem_of_app in Hid as [Hk Hid].
  cbn [Js.reduce_from].
  destruct (IH Hid (S index) (place acc k index)) as [-> ->].
  cbn [placeGroup placedPositions placedGroups]. unfold Js.reduce.
  by apply placeMembers_frame.
Qed.

Lemma placeGroups_lookup keys :
  ∀ index acc i k j char,
    keys !! i = Some k →
    members k !! j = Some char →
    NoDup (ids (members k)) →
    DataParser.id char ∉ ids (drop (S i) keys ≫= λ k, members k) →
    ∃ g,
      infosFrom (currentAngle acc) keys !! i = Some g
      ∧ placedPositions (Js.reduce_from place index keys acc)
          !! DataParser.id char
        = Some (Geometry.onCircle centerX centerY radius
                  (startAngle g
                   + (INR j + 0.5) * (span k / INR (length (members k)))))
      ∧ placedGroups (Js.reduce_from place index keys acc)
          !! DataParser.id char
        = Some (mkCharacterGroup k (index + i)).
Proof.
  induction keys as [|k0 keys IH];
    intros index acc i k j char Hi Hj Hnodup Hlater; [done|].
  cbn [Js.reduce_from]. destruct i as [|i]; cbn in Hi.
  - injection Hi as ->. eexists. split; [reflexivity|].
    cbn [drop] in Hlater.
    destruct (placeGroups_frame keys _ Hlater (S index) (place acc k index))
      as [-> ->].
    cbn [placeGroup placedPositions placedGroups startAngle].
    unfold Js.reduce.
    destruct (placeMembers_lookup centerX centerY radius (currentAngle acc)
                (span k / INR (length (members k))) k index
                (members k) Hnodup 0
                (placedPositions acc, placedGroups acc) j char Hj)
      as [-> ->].
    by rewrite Nat.add_0_r.
  - cbn [drop] in Hlater.
    destruct (IH (S index) (place acc k0 index) i k j char Hi Hj Hnodup Hlater)
      as (g & Hg & Hpos & Hgroup).
    exists g. split; [exact Hg|]. split; [exact Hpos|].
    rewrite Hgroup. do 2 f_equal. lia.
Qed.
End PlaceGroupsLookup.

Lemma NoDup_fmap_inj_on {A} (f : A → string) (l : list A) (x y : A) :
  NoDup (f <$> l) → x ∈ l → y ∈ l → f x = f y → x = y.
Proof.
  intros Hnodup (i & Hi)%list_elem_of_lookup_1 (j & Hj)%list_elem_of_lookup_1
    Heq.
  assert (i = j) as ->.
  { apply (NoDup_lookup (f <$> l) i j (f x)); [done|..].
    - by rewrite list_lookup_fmap, Hi.
    - by rewrite list_lookup_fmap, Hj, Heq. }
  congruence.
Qed.

Lemma grouped_member_lookup (characters : list DataParser.Character)
    (dimensions : Dimensions) (groupBy : string)
    (i j : nat) (k : string) (char : DataParser.Character) :
  groupBy ≠ "none" →
  NoDup (ids characters) →
  groupKeys groupBy characters !! i = Some k →
  filter (λ c, groupKeyOf groupBy c = k) characters !! j = Some char →
  let l := layout characters dimensions groupBy in
  let size :=
    length (filter (λ c, groupKeyOf groupBy c = k) characters) in
  ∃ infos g,
    groupInfo l = Some infos ∧ infos !! i = Some g ∧ name g = k
    ∧ positions l !! DataParser.id char
      = Some (Geometry.onCircle (width dimensions / 2)
                (height dimensions / 2)
                (Rmin (width dimensions) (height dimensions) * 0.35)
                (startAngle g
                 + (INR j + 0.5) * ((endAngle g - startAngle g) / INR size)))
    ∧ characterGroups l !! DataParser.id char
      = Some (mkCharacterGroup k i).
Proof.
  intros Hgrouped Hnodup Hi Hj l size.
  assert (k ∈ groupKeys groupBy characters) as Hk
    by (by eapply list_elem_of_lookup_2).
  pose proof (GroupingFacts.groups_lookup_groupKeys groupBy characters k Hk)
    as Hbucket.
  assert (default [] (groups groupBy characters !! k)
          = filter (λ c, groupKeyOf groupBy c = k) characters) as Hmembers
    by (by rewrite Hbucket).
  assert (char ∈ filter (λ c, groupKeyOf groupBy c = k) characters) as Hin
    by (by eapply list_elem_of_lookup_2).
  apply list_elem_of_filter in Hin as [Hkey Hin].
  destruct (placeGroups_lookup (groups groupBy characters)
              (length characters)
              (usableAngle (length (groupKeys groupBy characters)))
              (width dimensions / 2) (height dimensions / 2)
              (Rmin (width dimensions) (height dimensions) * 0.35)
              (groupKeys groupBy characters) 0
              (mkPlacement ∅ [] ∅ (- PI / 2)) i k j char)
    as (g & Hg & Hpos & Hgroup).
  - done.
  - by rewrite Hmembers.
  - rewrite Hmembers.
    refine (sublist_NoDup _ _ Hnodup _).
    apply fmap_sublist, sublist_filter.
  - intros (char' & Hid & (k' & Hmem & Hk')%list_elem_of_bind)
      %list_elem_of_fmap.
    apply list_elem_of_lookup_1 in Hk' as [i' Hi'].
    rewrite lookup_drop in Hi'.
    assert (k' ∈ groupKeys groupBy characters) as Hk'in
      by (by eapply list_elem_of_lookup_2).
    rewrite GroupingFacts.groups_lookup_groupKeys in Hmem by done.
    cbn in Hmem. apply list_elem_of_filter in Hmem as [Hkey' Hin'].
    assert (char = char') as <-
      by (by eapply (NoDup_fmap_inj_on DataParser.id characters)).
    assert (i = (S i + i')%nat) as Habs; [|lia].
    eapply NoDup_lookup; [apply GroupingFacts.groupKeys_NoDup|exact Hi|].
    by rewrite Hi', <- Hkey', Hkey.
  - destruct (groupInfoFrom_lookup _ _ _ _ _ _ _ _ _ _ Hg)
      as (k' & Hk' & Hname & Hend & _).
    assert (k' = k) as -> by congruence.
    rewrite Hmembers in Hend, Hpos. fold size in Hend, Hpos.
    assert (endAngle g - startAngle g
            = groupAngleSpan size (length characters)
                (usableAngle (length (groupKeys groupBy characters))))
      as Hspan by (rewrite Hend; ring).
    exists (groupInfoFrom (groups groupBy characters) (length characters)
              (usableAngle (length (groupKeys groupBy characters)))
              (width dimensions / 2) (height dimensions / 2)
              (Rmin (width dimensions) (height dimensions) * 0.35)
              (- PI / 2) (groupKeys groupBy characters)), g.
    split; [by apply layout_groupInfo|]. split; [exact Hg|].
    split; [exact Hname|].
    subst l. rewrite LayoutFacts.layout_grouped by done.
    cbn [positions characterGroups]. rewrite Hspan.
    split; [exact Hpos|]. exact Hgroup.
Qed.


(** X21: in a grouped layout with pairwise distinct ids, the [j]-th
    character of the [i]-th bucket sits at the angle
    [start + (j + 0.5) * (end - start) / size] of the [i]-th group record,
    hence strictly inside its bracket when the bracket has positive width,
    and its group record names that bucket and that index. *)
Theorem grouped_member_position (characters : list DataParser.Character)
    (dimensions : Dimensions) (groupBy : string)
    (i j : nat) (k : string) (char : DataParser.Character) :
  groupBy ≠ "none" →
  NoDup (ids characters) →
  groupKeys groupBy characters !! i = Some k →
  filter (λ c, groupKeyOf groupBy c = k) characters !! j = Some char →
  let l := layout characters dimensions groupBy in
  let size :=
    length (filter (λ c, groupKeyOf groupBy c = k) characters) in
  ∃ infos g,
    groupInfo l = Some infos ∧ infos !! i = Some g ∧ name g = k
    ∧ positions l !! DataParser.id char
      = Some (Geometry.onCircle (width dimensions / 2)
                (height dimensions / 2)
                (Rmin (width dimensions) (height dimensions) * 0.35)
                (startAngle g
                 + (INR j + 0.5) * ((endAngle g - startAngle g) / INR size)))
    ∧ characterGroups l !! DataParser.id char
      = Some (mkCharacterGroup k i)
    ∧ (startAngle g < endAngle g →
       startAngle g
       < startAngle g
         + (INR j + 0.5) * ((endAngle g - startAngle g) / INR size)
       < endAngle g).
Proof.
  intros Hgrouped Hnodup Hi Hj l size.
  destruct (grouped_member_lookup characters dimensions groupBy i j k char
              Hgrouped Hnodup Hi Hj)
    as (infos & g & Hinfos & Hg & Hname & Hpos & Hgroup).
  exists infos, g.
  split; [exact Hinfos|]. split; [exact Hg|]. split; [exact Hname|].
  split; [exact Hpos|]. split; [exact Hgroup|].
  intros Hwidth.
  assert (j < size)%nat as Hlt by (by eapply lookup_lt_Some).
  assert (0 < INR size) as Hsize by (apply lt_0_INR; lia).
  assert (INR j + 1 <= INR size) as Hj1.
  { rewrite <- S_INR. apply le_INR. lia. }
  assert (0 <= INR j) as Hj0 by apply pos_INR.
  set (w := endAngle g - startAngle g) in *.
  assert (0 < w) as Hw by (subst w; lra).
  assert ((INR j + 0.5) * (w / INR size) = w * ((INR j + 0.5) / INR size))
    as -> by (field; lra).
  assert (0 < (INR j + 0.5) / INR size < 1) as [Hlo Hhi].
  { split.
    - apply Rdiv_lt_0_compat; lra.
    - apply (Rmult_lt_reg_r (INR size)); [done|].
      unfold Rdiv. rewrite Rmult_assoc, Rinv_l by lra. lra. }
  split; [nra|]. subst w. nra.
Qed.

Lemma grouped_member_position_witness :
  "species" ≠ "none"
  ∧ NoDup (ids Sample.characters)
  ∧ groupKeys "species" Sample.characters !! 0%nat = Some "Droid"
  ∧ characterGroups (layout Sample.characters Sample.window "species") !! "B"
    = Some (mkCharacterGroup "Droid" 0).
Proof.
  assert ("species" ≠ "none") as Hgrouped by done.
  assert (NoDup (ids Sample.characters)) as Hnodup
    by (apply (bool_decide_unpack _); vm_compute; exact I).
  assert (groupKeys "species" Sample.characters !! 0%nat = Some "Droid")
    as Hkey by (by vm_compute).
  split; [exact Hgrouped|]. split; [exact Hnodup|]. split; [exact Hkey|].
  destruct (grouped_member_position Sample.characters Sample.window
              "species" 0 1 "Droid" (Sample.character "B" "Droid")
              Hgrouped Hnodup Hkey)
    as (infos & g & _ & _ & _ & _ & Hgroup & _); [by vm_compute|].
  exact Hgroup.
Defined.

(** *** Brackets *)

Lemma sum_list_two (l : list nat) (i j a b : nat) :
  i ≠ j → l !! i = Some a → l !! j = Some b → (a + b ≤ sum_list l)%nat.
Proof.
  revert i j. induction l as [|x l IH]; intros i j Hne Hi Hj; [done|].
  change (sum_list (x :: l)) with (x + sum_list l)%nat.
  destruct i as [|i], j as [|j]; cbn in Hi, Hj.
  - done.
  - injection Hi as ->. apply list_elem_of_lookup_2 in Hj.
    assert (b ≤ sum_list l)%nat as Hle
      by exact (sum_list_with_in _ Datatypes.id _ Hj).
    lia.
  - injection Hj as ->. apply list_elem_of_lookup_2 in Hi.
    assert (a ≤ sum_list l)%nat as Hle
      by exact (sum_list_with_in _ Datatypes.id _ Hi).
    lia.
  - assert (a + b ≤ sum_list l)%nat by (apply (IH i j); [lia|done|done]). lia.
Qed.

(** X22: at most one bracket of a grouped layout is drawn as a large arc
    (a span of more than half a turn). *)
Theorem one_large_arc (characters : list DataParser.Character)
    (dimensions : Dimensions) (groupBy : string) :
  groupBy ≠ "none" →
  ∃ infos,
    groupInfo (layout characters dimensions groupBy) = Some infos
    ∧ ∀ i j g g',
        infos !! i = Some g → infos !! j = Some g' →
        largeArcFlag (renderBracket g) = 1%nat →
        largeArcFlag (renderBracket g') = 1%nat →
        i = j.
Proof.
  intros Hgrouped. eexists. split; [by apply layout_groupInfo|].
  intros i j g g' Hi Hj Hg Hg'.
  destruct (decide (i = j)) as [|Hne]; [done|]. exfalso.
  destruct (groupInfoFrom_lookup _ _ _ _ _ _ _ _ _ _ Hi)
    as (k & Hk & _ & Hend & _).
  destruct (groupInfoFrom_lookup _ _ _ _ _ _ _ _ _ _ Hj)
    as (k' & Hk' & _ & Hend' & _).
  unfold renderBracket in Hg, Hg'. cbn [largeArcFlag] in Hg, Hg'.
  destruct (Rlt_dec PI (endAngle g - startAngle g)) as [Hbig|]; [|done].
  destruct (Rlt_dec PI (endAngle g' - startAngle g')) as [Hbig'|]; [|done].
  rewrite Hend in Hbig. rewrite Hend' in Hbig'.
  set (sizes := (λ k, length (default [] (groups groupBy characters !! k)))
                  <$> groupKeys groupBy characters).
  assert (length (default [] (groups groupBy characters !! k))
          + length (default [] (groups groupBy characters !! k'))
          ≤ length characters)%nat as Hsizes.
  { rewrite <- (LayoutFacts.groupKeys_sizes groupBy characters).
    apply (sum_list_two sizes i j); [done|..]; subst sizes.
    - by rewrite list_lookup_fmap, Hk.
    - by rewrite list_lookup_fmap, Hk'. }
  set (n := length (default [] (groups groupBy characters !! k))) in *.
  set (n' := length (default [] (groups groupBy characters !! k'))) in *.
  unfold groupAngleSpan, usableAngle, gapAngle in Hbig, Hbig'.
  set (u := 2 * PI - 0.05 * INR (length (groupKeys groupBy characters))) in *.
  pose proof PI_RGT_0 as Hpi.
  assert (u <= 2 * PI) as Hu.
  { subst u. pose proof (pos_INR (length (groupKeys groupBy characters))).
    lra. }
  pose proof (pos_INR n) as Hn. pose proof (pos_INR n') as Hn'.
  assert (INR n + INR n' <= INR (length characters)) as Hle.
  { rewrite <- plus_INR. by apply le_INR. }
  destruct (Nat.eq_dec (length characters) 0%nat) as [H0|Hpos].
  - assert (n = 0%nat) as Hn0 by lia. rewrite Hn0 in Hbig. cbn [INR] in Hbig.
    unfold Rdiv in Hbig. rewrite !Rmult_0_l in Hbig. lra.
  - assert (0 < INR (length characters)) as Ht by (apply lt_0_INR; lia).
    set (t := INR (length characters)) in *.
    assert (0 < / t) as Hinv by (by apply Rinv_0_lt_compat).
    assert (0 <= INR n / t) as Ha by (unfold Rdiv; nra).
    assert (0 <= INR n' / t) as Ha' by (unfold Rdiv; nra).
    assert (INR n / t + INR n' / t <= 1) as Hone.
    { unfold Rdiv. rewrite <- Rmult_plus_distr_r.
      apply (Rmult_le_reg_r t); [done|].
      rewrite Rmult_assoc, Rinv_l by lra. lra. }
    nra.
Qed.

Lemma one_large_arc_witness :
  "species" ≠ "none"
  ∧ ∃ infos,
      groupInfo (layout Sample.characters Sample.window "species")
      = Some infos
      ∧ ∀ i j g g',
          infos !! i = Some g → infos !! j = Some g' →
          largeArcFlag (renderBracket g) = 1%nat →
          largeArcFlag (renderBracket g') = 1%nat →
          i = j.
Proof.
  split; [done|].
  apply (one_large_arc Sample.characters Sample.window "species"). done.
Defined.

(** X23: in a viewport of non-negative width and height every bracket is
    the arc from the start angle to the end angle of its group on the
    circle 50 pixels outside the nodes, and its label sits 15 pixels
    further out at the middle angle. *)
Theorem bracket_outside_nodes (characters : list DataParser.Character)
    (dimensions : Dimensions) (groupBy : string) :
  0 <= width dimensions →
  0 <= height dimensions →
  groupBy ≠ "none" →
  let cX := width dimensions / 2 in
  let cY := height dimensions / 2 in
  let r := Rmin (width dimensions) (height dimensions) * 0.35 in
  ∃ infos,
    groupInfo (layout characters dimensions groupBy) = Some infos
    ∧ ∀ g, g ∈ infos →
        arcStart (renderBracket g)
        = Geometry.onCircle cX cY (r + 50) (startAngle g)
        ∧ arcEnd (renderBracket g)
          = Geometry.onCircle cX cY (r + 50) (endAngle g)
        ∧ labelPosition (renderBracket g)
          = Geometry.onCircle cX cY (r + 65)
              ((startAngle g + endAngle g) / 2)
        ∧ Geometry.distance (arcStart (renderBracket g)) cX cY = r + 50
        ∧ Geometry.distance (arcEnd (renderBracket g)) cX cY = r + 50
        ∧ Geometry.distance (labelPosition (renderBracket g)) cX cY
          = r + 65.
Proof.
  intros Hw Hh Hgrouped cX cY r.
  eexists. split; [by apply layout_groupInfo|].
  intros g (i & Hi)%list_elem_of_lookup_1.
  destruct (groupInfoFrom_lookup _ _ _ _ _ _ _ _ _ _ Hi)
    as (k & _ & _ & _ & HcX & HcY & Hr).
  pose proof (LayoutFacts.rad_nonneg dimensions Hw Hh) as Hrad.
  fold r in Hrad.
  assert (arcStart (renderBracket g)
          = Geometry.onCircle cX cY (r + 50) (startAngle g)) as Hstart.
  { unfold renderBracket, Geometry.onCircle. cbn [arcStart].
    by rewrite HcX, HcY, Hr. }
  assert (arcEnd (renderBracket g)
          = Geometry.onCircle cX cY (r + 50) (endAngle g)) as Hend.
  { unfold renderBracket, Geometry.onCircle. cbn [arcEnd].
    by rewrite HcX, HcY, Hr. }
  assert (labelPosition (renderBracket g)
          = Geometry.onCircle cX cY (r + 65)
              ((startAngle g + endAngle g) / 2)) as Hlabel.
  { unfold renderBracket, Geometry.onCircle. cbn [labelPosition].
    rewrite HcX, HcY, Hr. fold cX cY r.
    by replace (r + 50 + 15) with (r + 65) by lra. }
  rewrite Hstart, Hend, Hlabel.
  rewrite !LayoutFacts.distance_onCircle by lra. done.
Qed.

Lemma bracket_outside_nodes_witness :
  0 <= width Sample.window ∧ 0 <= height Sample.window
  ∧ "species" ≠ "none"
  ∧ ∃ infos,
      groupInfo (layout Sample.characters Sample.window "species")
      = Some infos
      ∧ ∀ g, g ∈ infos →
          Geometry.distance (arcStart (renderBracket g)) (800 / 2) (600 / 2)
          = Rmin 800 600 * 0.35 + 50.
Proof.
  assert (0 <= width Sample.window) as Hw by (cbn; lra).
  assert (0 <= height Sample.window) as Hh by (cbn; lra).
  assert ("species" ≠ "none") as Hgrouped by done.
  split; [exact Hw|]. split; [exact Hh|]. split; [exact Hgrouped|].
  destruct (bracket_outside_nodes Sample.characters Sample.window "species"
              Hw Hh Hgrouped) as (infos & Hinfos & Hall).
  exists infos. split; [exact Hinfos|].
  intros g Hg. exact (proj1 (proj2 (proj2 (proj2 (Hall g Hg))))).
Defined.

(** *** Label orientation *)

Lemma groupInfoFrom_bounds groups totalCharacters usableAngle centerX
    centerY radius keys :
  (∀ k, k ∈ keys →
        0 <= groupAngleSpan (length (default [] (groups !! k)))
               totalCharacters usableAngle) →
  ∀ angle i g,
    groupInfoFrom groups totalCharacters usableAngle centerX centerY radius
      angle keys !! i = Some g →
    angle <= startAngle g
    ∧ startAngle g <= endAngle g
    ∧ endAngle g + gapAngle
      <= angle
         + (Geometry.sum
              ((λ k, groupAngleSpan (length (default [] (groups !! k)))
                       totalCharacters usableAngle) <$> keys)
            + INR (length keys) * gapAngle).
Proof.
  induction keys as [|k keys IH]; intros Hspans angle i g Hi; [done|].
  assert (0 <= groupAngleSpan (length (default [] (groups !! k)))
                 totalCharacters usableAngle) as Hk
    by (apply Hspans; left).
  assert (∀ k', k' ∈ keys →
                0 <= groupAngleSpan (length (default [] (groups !! k')))
                       totalCharacters usableAngle) as Hrest
    by (intros k' Hk'; apply Hspans; by right).
  assert (0 <= Geometry.sum
                 ((λ k, groupAngleSpan (length (default [] (groups !! k)))
                          totalCharacters usableAngle) <$> keys)
               + INR (length keys) * gapAngle) as Hsum.
  { clear -Hrest. induction keys as [|k' keys IH].
    - cbn. unfold Geometry.sum. cbn. lra.
    - cbn [fmap list_fmap length]. rewrite S_INR.
      unfold Geometry.sum in *. cbn [foldr].
      assert (0 <= groupAngleSpan (length (default [] (groups !! k')))
                     totalCharacters usableAngle)
        by (apply Hrest; left).
      assert (0 <= foldr Rplus 0
                     ((λ k, groupAngleSpan
                              (length (default [] (groups !! k)))
                              totalCharacters usableAngle) <$> keys)
                   + INR (length keys) * gapAngle)
        by (apply IH; intros k'' Hk''; apply Hrest; by right).
      unfold gapAngle in *. lra. }
  cbn [fmap list_fmap length]. rewrite S_INR.
  unfold Geometry.sum in *. cbn [foldr].
  destruct i as [|i]; cbn in Hi.
  - injection Hi as <-. cbn [startAngle endAngle].
    unfold gapAngle in *. lra.
  - destruct (IH Hrest _ _ _ Hi) as (Hlo & Hmid & Hhi).
    unfold gapAngle in *. lra.
Qed.

(** X24: with at most 120 groups the label of a bracket is never upside
    down: it is rotated by an angle between -90 and 90 degrees and
    anchored at its start, or flipped, by an angle between 270 and 450
    degrees, and anchored at its end. *)
Theorem bracket_label_upright (characters : list DataParser.Character)
    (dimensions : Dimensions) (groupBy : string) :
  groupBy ≠ "none" →
  (length (groupKeys groupBy characters) ≤ 120)%nat →
  ∃ infos,
    groupInfo (layout characters dimensions groupBy) = Some infos
    ∧ ∀ g, g ∈ infos →
        (anchor (renderBracket g) = "start"
         ∧ -90 <= labelRotation (renderBracket g) <= 90)
        ∨ (anchor (renderBracket g) = "end"
           ∧ 270 < labelRotation (renderBracket g) < 450).
Proof.
  intros Hgrouped Hfew. eexists. split; [by apply layout_groupInfo|].
  intros g (i & Hi)%list_elem_of_lookup_1.
  pose proof PI_RGT_0 as Hpi. pose proof PI2_3_2 as Hpi3.
  assert (characters ≠ []) as Hne.
  { intros ->. by vm_compute in Hi. }
  assert (0 < INR (length characters)) as Ht.
  { apply lt_0_INR. destruct characters; [done | cbn; lia]. }
  assert (0 <= usableAngle (length (groupKeys groupBy characters))) as Hu.
  { unfold usableAngle, gapAngle.
    assert (INR (length (groupKeys groupBy characters)) <= 120) as Hn.
    { replace 120 with (INR 120) by (rewrite INR_IZR_INZ; done).
      by apply le_INR. }
    lra. }
  assert (∀ k, k ∈ groupKeys groupBy characters →
               0 <= groupAngleSpan
                      (length (default [] (groups groupBy characters !! k)))
                      (length characters)
                      (usableAngle (length (groupKeys groupBy characters))))
    as Hspans.
  { intros k _. unfold groupAngleSpan, Rdiv.
    apply Rmult_le_pos; [|exact Hu].
    apply Rmult_le_pos; [apply pos_INR|].
    left. by apply Rinv_0_lt_compat. }
  destruct (groupInfoFrom_bounds _ _ _ _ _ _ _ Hspans _ _ _ Hi)
    as (Hlo & Hmid & Hhi).
  rewrite (total_span characters groupBy Hne) in Hhi.
  unfold gapAngle in Hhi.
  unfold renderBracket. cbn [anchor labelRotation].
  set (mid := (startAngle g + endAngle g) / 2).
  assert (- PI / 2 <= mid) as Hmid_lo by (subst mid; lra).
  assert (mid < 3 * PI / 2) as Hmid_hi by (subst mid; lra).
  assert (-90 <= mid * 180 / PI) as Hdeg_lo.
  { apply (Rmult_le_reg_r PI); [lra|].
    unfold Rdiv. rewrite (Rmult_assoc (mid * 180)), Rinv_l by lra. lra. }
  assert (mid * 180 / PI < 270) as Hdeg_hi.
  { apply (Rmult_lt_reg_r PI); [lra|].
    unfold Rdiv. rewrite (Rmult_assoc (mid * 180)), Rinv_l by lra. lra. }
  destruct (Rlt_dec 90 (mid * 180 / PI)) as [Hover|Hunder].
  - destruct (Rlt_dec (mid * 180 / PI) 270); [|lra].
    right. split; [done|lra].
  - left. split; [done|lra].
Qed.

Lemma bracket_label_upright_witness :
  "species" ≠ "none"
  ∧ (length (groupKeys "species" Sample.characters) ≤ 120)%nat
  ∧ ∃ infos,
      groupInfo (layout Sample.characters Sample.window "species")
      = Some infos
      ∧ ∀ g, g ∈ infos →
          (anchor (renderBracket g) = "start"
           ∧ -90 <= labelRotation (renderBracket g) <= 90)
          ∨ (anchor (renderBracket g) = "end"
             ∧ 270 < labelRotation (renderBracket g) < 450).
Proof.
  assert ("species" ≠ "none") as Hgrouped by done.
  assert (length (groupKeys "species" Sample.characters) ≤ 120)%nat as Hfew
    by (vm_compute; lia).
  split; [exact Hgrouped|]. split; [exact Hfew|].
  exact (bracket_label_upright Sample.characters Sample.window "species"
           Hgrouped Hfew).
Defined.

End LayoutExtras.


(** ** Node colours *)

Module RenderExtras.
Import Dashboard.
Local Open Scope R_scope.

Lemma indexOf_lookup (l : list string) (i : nat) (x : string) :
  NoDup l → l !! i = Some x → Js.indexOf x l = Some i.
Proof.
  revert i. induction l as [|y l IH]; intros i Hnodup Hi; [done|].
  apply NoDup_cons in Hnodup as [Hnotin Hnodup].
  destruct i as [|i]; cbn in Hi; cbn [Js.indexOf].
  - injection Hi as ->. by rewrite String.eqb_refl.
  - destruct (String.eqb_spec y x) as [->|_].
    + exfalso. apply Hnotin. by eapply list_elem_of_lookup_2.
    + by rewrite (IH i).
Qed.

Lemma sort_groupKeys groupBy characters :
  Js.sort (groupKeys groupBy characters) = groupKeys groupBy characters.
Proof.
  apply GroupingFacts.sort_keys_any_order.
  unfold groupKeys, Js.sort. apply merge_sort_Permutation.
Qed.

Lemma groupInfoFrom_names groups totalCharacters usableAngle centerX centerY
    radius keys :
  ∀ angle,
    name <$> groupInfoFrom groups totalCharacters usableAngle centerX
               centerY radius angle keys
    = keys.
Proof.
  induction keys as [|k keys IH]; intros angle; [done|].
  cbn. by rewrite IH.
Qed.

(** The render pass returns, and its node elements are the results of the
    callback of [characters.map]. *)
Lemma render_nodes characters connections st :
  let l := layout characters (dimensions st) (groupBy st) in
  ∃ view,
    render characters connections st = Js.Ok view
    ∧ Forall2
        (λ char node,
           renderNode l (groupBy st) (hoveredCharacterId st)
             (connectedCharacters (hoveredCharacterId st) connections)
             (width (dimensions st) / 2) (height (dimensions st) / 2) char
           = Js.Ok node)
        characters (nodeElements view).
Proof.
  intros l.
  destruct (RenderFacts.mapM_total
              (renderNode l (groupBy st) (hoveredCharacterId st)
                 (connectedCharacters (hoveredCharacterId st) connections)
                 (width (dimensions st) / 2) (height (dimensions st) / 2))
              characters) as (nodes & Hnodes & Hall).
  { intros char Hin.
    destruct (RenderFacts.renderNode_layout characters (dimensions st)
                (groupBy st) (groupBy st) (hoveredCharacterId st)
                (connectedCharacters (hoveredCharacterId st) connections)
                (width (dimensions st) / 2) (height (dimensions st) / 2)
                char Hin) as (props & Hprops & _).
    by exists (Some props). }
  exists (mkView
            (connectionElement (positions l) (hoveredCharacterId st)
               (width (dimensions st) / 2) (height (dimensions st) / 2)
             <$> connections) nodes).
  split; [|exact Hall].
  unfold render. fold l.
  rewrite (RenderFacts.mapM_Ok _
             (connectionElement (positions l) (hoveredCharacterId st)
                (width (dimensions st) / 2) (height (dimensions st) / 2)))
    by (intros conn _; apply RenderFacts.renderConnection_Ok).
  cbn [Js.bind]. by rewrite Hnodes.
Qed.

(** X25: without grouping a node is coloured by its species; in a grouped
    layout with pairwise distinct ids it is coloured by the rank of its
    bucket among the sorted keys, so that the characters of one bucket
    share a colour. *)
Theorem node_colour (characters : list DataParser.Character)
    (connections : list DataParser.Edge) (st : State)
    (j : nat) (char : DataParser.Character) :
  NoDup (DataParser.id <$> characters) →
  characters !! j = Some char →
  ∃ view props,
    render characters connections st = Js.Ok view
    ∧ nodeElements view !! j = Some (Some props)
    ∧ character props = char
    ∧ (groupBy st = "none" →
       color props = Palette.getColorForSpecies (DataParser.species char))
    ∧ (groupBy st ≠ "none" →
       ∃ i, groupKeys (groupBy st) characters !! i
            = Some (groupKeyOf (groupBy st) char)
            ∧ color props
              = getColorForGroup (groupKeyOf (groupBy st) char) i
                  (length (groupKeys (groupBy st) characters))).
Proof.
  intros Hnodup Hj.
  destruct (render_nodes characters connections st) as (view & Hview & Hall).
  destruct (Forall2_lookup_l _ _ _ _ _ Hall Hj) as (node & Hnode & Hok).
  assert (char ∈ characters) as Hin by (by eapply list_elem_of_lookup_2).
  destruct (RenderFacts.renderNode_layout characters (dimensions st)
              (groupBy st) (groupBy st) (hoveredCharacterId st)
              (connectedCharacters (hoveredCharacterId st) connections)
              (width (dimensions st) / 2) (height (dimensions st) / 2)
              char Hin) as (props & Hprops & Hchar & Hpos & _).
  cbv zeta in Hprops, Hpos. rewrite Hprops in Hok. injection Hok as <-.
  exists view, props. split; [exact Hview|]. split; [exact Hnode|].
  split; [exact Hchar|].
  unfold renderNode in Hprops. rewrite Hpos in Hprops.
  split.
  - intros Hnone. rewrite Hnone in Hprops.
    destruct (characterGroups _ !! _); [|done].
    cbn [String.eqb Ascii.eqb Bool.eqb] in Hprops.
    injection Hprops as <-. done.
  - intros Hgrouped.
    assert (groupKeyOf (groupBy st) char ∈ groupKeys (groupBy st) characters)
      as Hkey by (apply GroupingFacts.elem_of_groupKeys; eauto).
    apply list_elem_of_lookup_1 in Hkey as [i Hi].
    assert (char ∈ filter (λ c, groupKeyOf (groupBy st) c
                                = groupKeyOf (groupBy st) char) characters)
      as Hmem by (by apply list_elem_of_filter).
    apply list_elem_of_lookup_1 in Hmem as [j' Hj'].
    destruct (LayoutExtras.grouped_member_lookup characters (dimensions st)
                (groupBy st) i j' _ char Hgrouped Hnodup Hi Hj')
      as (infos & g & Hinfos & _ & _ & _ & Hgroup).
    cbv zeta in Hinfos, Hgroup.
    rewrite Hgroup, Hinfos in Hprops.
    rewrite (LayoutExtras.layout_groupInfo _ _ _ Hgrouped) in Hinfos.
    injection Hinfos as <-.
    rewrite groupInfoFrom_names, sort_groupKeys in Hprops.
    cbn [groupKey] in Hprops.
    rewrite (indexOf_lookup _ i) in Hprops;
      [|apply GroupingFacts.groupKeys_NoDup|exact Hi].
    destruct (String.eqb_spec (groupBy st) "none"); [done|].
    injection Hprops as <-. by exists i.
Qed.

Lemma node_colour_witness :
  NoDup (DataParser.id <$> Sample.characters)
  ∧ Sample.characters !! 3%nat = Some (Sample.character "D" "Human")
  ∧ ∃ view props,
      render Sample.characters Sample.connections
        (initialState Sample.window) = Js.Ok view
      ∧ nodeElements view !! 3%nat = Some (Some props)
      ∧ color props = "#4A9EFF".
Proof.
  assert (NoDup (DataParser.id <$> Sample.characters)) as Hnodup
    by (apply (bool_decide_unpack _); vm_compute; exact I).
  split; [exact Hnodup|]. split; [reflexivity|].
  destruct (node_colour Sample.characters Sample.connections
              (initialState Sample.window) 3
              (Sample.character "D" "Human") Hnodup eq_refl)
    as (view & props & Hview & Hnode & _ & Hnone & _).
  exists view, props. split; [exact Hview|]. split; [exact Hnode|].
  rewrite (Hnone eq_refl). by vm_compute.
Defined.

End RenderExtras.
